(** * print-preview: frame discovery, frame store and playback views

    A shallow embedding of the TypeScript sources

    - [imageService.ts]   (locator template, existence probe, backward scan),
    - the [PrinterView] variants (frame store updater, live loop, start/stop),
    - [hooks/useOneDriveImages.ts] (listing-based grouping),

    together with the properties of the design document that concern them.

    JavaScript numbers that are always integers here (minutes, counters,
    array lengths, indices) are modelled in [Z]; strings are [string];
    arrays are [list]s in array order ([push] appends at the end). *)

From stdpp Require Import base numbers list gmap sets strings pretty sorting.
From Stdlib Require Import ZArith Lia ZifyNat Sorting.Sorted Ascii.

Local Open Scope string_scope.
Local Open Scope Z_scope.
Local Open Scope list_scope.

(** ** Array helpers shared by the views *)

Module JsArray.

Section Sort.
Context {A : Type}.
(** A comparator in the sense of [Array.prototype.sort]: negative when
    the first argument goes first. *)
Variable cmp : A -> A -> Z.

(** [insertSorted x l] puts [x] in front of the first element it does not
    follow; as [x] stood to the left of all of [l] in the input, equal
    elements keep their input order. *)
Fixpoint insertSorted (x : A) (l : list A) : list A :=
  match l with
  | [] => [x]
  | y :: ys => if cmp x y <=? 0 then x :: y :: ys else y :: insertSorted x ys
  end.

(** [Array.prototype.sort(cmp)]: the specification asks for a stable sort
    of the elements; for a consistent comparator every stable sort returns
    this list. *)
Fixpoint sort (l : list A) : list A :=
  match l with
  | [] => []
  | x :: xs => insertSorted x (sort xs)
  end.
End Sort.

(** [arr.slice(-n)] for [n > 0]: the last [n] elements, or the whole array
    when it is shorter. *)
Definition sliceLast {A : Type} (n : nat) (l : list A) : list A :=
  drop (length l - n)%nat l.

End JsArray.

(** ** imageService.ts *)

Module ImageService.

Definition BASE_URL : string :=
  "https://res.cloudinary.com/dh1i2mqa6/image/upload/v1770469171/bambu".

Inductive PrinterId : Type := h2c | h2d.

Definition printerIdString (p : PrinterId) : string :=
  match p with h2c => "h2c" | h2d => "h2d" end.

Record PrinterEntry : Type := { id : PrinterId; label : string }.

Definition PRINTERS : list PrinterEntry :=
  [ {| id := h2c; label := "Printer 1 (H2C)" |};
    {| id := h2d; label := "Printer 2 (H2D)" |} ].

(** The template literal prints an integer minute in decimal. *)
Definition getImageUrl (printer : PrinterId) (minute : Z) : string :=
  BASE_URL +:+ "/" +:+ printerIdString printer +:+ "_" +:+ pretty minute +:+ ".jpg".

(** What can go wrong while an [Image] element loads its [src]. Every one
    of these reaches the page as the element's [error] event. *)
Inductive LoadFailure : Type :=
  | NotFound
  | NetworkFailure
  | HttpStatus (code : Z)
  | MalformedResponse.

(** The event an [Image] element fires after [img.src = url]. *)
Inductive LoadEvent : Type :=
  | OnLoad
  | OnError (why : LoadFailure).

(** The network as one scan sees it: the event each locator leads to. *)
Definition Network : Type := string -> LoadEvent.

(** [imageExists]: [onload] resolves the promise with [true], [onerror]
    with [false]; the promise is never rejected. *)
Definition imageExists (net : Network) (url : string) : bool :=
  match net url with
  | OnLoad => true
  | OnError _ => false
  end.

Record Frame : Type := { minute : Z; url : string }.

(** The result of a scan, with the ordinals that were probed, in the order
    of the probes (a ghost trace: the code keeps no such list). *)
Record Scan : Type := { results : list Frame; probed : list Z }.

Section Loop.
Variable net : Network.
Variable printer : PrinterId.
Variables count maxGap : Z.

(** The [for] loop of [findRecentImages], one iteration per unit of
    fuel: [m], [results] and [consecutiveMisses] are the loop's
    variables. [None] only when the fuel runs out before the loop ends. *)
Fixpoint scanLoop (fuel : nat) (m : Z) (results : list Frame)
    (consecutiveMisses : Z) (probed : list Z) : option Scan :=
  match fuel with
  | O => None
  | S fuel' =>
      if bool_decide (m >= 0) && bool_decide (Z.of_nat (length results) < count) then
        let url := getImageUrl printer m in
        let exists_ := imageExists net url in
        if exists_ then
          scanLoop fuel' (m - 1) (results ++ [ {| minute := m; url := url |} ])
                   0 (probed ++ [m])
        else
          let consecutiveMisses := consecutiveMisses + 1 in
          if bool_decide (consecutiveMisses >= maxGap) then
            Some {| results := results; probed := probed ++ [m] |}
          else
            scanLoop fuel' (m - 1) results consecutiveMisses (probed ++ [m])
      else
        Some {| results := results; probed := probed |}
  end.
End Loop.

(** Iterations the loop can take from [startMinute]: one per ordinal from
    [startMinute] down to [0], and the last test of its condition. *)
Definition scanFuel (startMinute : Z) : nat := S (Z.to_nat (startMinute + 1)).

(** [findRecentImages] with the probed ordinals: the loop from
    [startMinute], then [results.reverse()]. *)
Definition findRecentImagesTraced (net : Network) (printer : PrinterId)
    (startMinute count maxGap : Z) : option Scan :=
  match scanLoop net printer count maxGap (scanFuel startMinute) startMinute [] 0 [] with
  | Some s => Some {| results := reverse (results s); probed := probed s |}
  | None => None
  end.

Definition findRecentImages (net : Network) (printer : PrinterId)
    (startMinute count maxGap : Z) : option (list Frame) :=
  results <$> findRecentImagesTraced net printer startMinute count maxGap.

(** The defaults of the signature: [count = 60], [maxGap = 10]. *)
Definition findRecentImagesDefault (net : Network) (printer : PrinterId)
    (startMinute : Z) : option (list Frame) :=
  findRecentImages net printer startMinute 60 10.

(** A network on which exactly the frames of [printer] at [ordinals] exist. *)
Definition hitsAt (printer : PrinterId) (ordinals : list Z) : Network :=
  fun u => if bool_decide (u ∈ (getImageUrl printer <$> ordinals))
           then OnLoad else OnError NotFound.

(** The network with every failure reported as a missing image. *)
Definition asNotFound (net : Network) : Network :=
  fun u => match net u with
           | OnLoad => OnLoad
           | OnError _ => OnError NotFound
           end.

(** A network on which every load fails for lack of a connection. *)
Definition offline : Network := fun _ => OnError NetworkFailure.

Definition frameAt (printer : PrinterId) (m : Z) : Frame :=
  {| minute := m; url := getImageUrl printer m |}.

(** The ordinals [start, start - 1, ...], [n] of them. *)
Definition downFrom (start : Z) (n : nat) : list Z :=
  (fun i => start - Z.of_nat i) <$> seq 0 n.

End ImageService.

(** ** The frame store of the probing views

    [loadImages] of the live-loop view and of the start/stop view hand the
    same updater to [setFrames]. *)

Module FrameStore.
Import ImageService.

(** What a [useState] updater returns: the array it was given ([return
    prev], which React recognises with [Object.is] and answers with no
    re-render), or another array. [images] and the sorted copy are arrays
    made by the call itself, never the one the store holds. *)
Inductive Update : Type :=
  | SameValue
  | NewValue (next : list Frame).

(** The store after the update. *)
Definition commit (prev : list Frame) (u : Update) : list Frame :=
  match u with
  | SameValue => prev
  | NewValue next => next
  end.

(** Whether subscribers are told: React re-renders unless the updater
    returned the very array it was given. *)
Definition signalsUpdate (u : Update) : bool :=
  match u with
  | SameValue => false
  | NewValue _ => true
  end.

Definition byMinute (a b : Frame) : Z := minute a - minute b.

(** [new Set(prev.map((f) => f.minute))] *)
Definition minutesOf (prev : list Frame) : gset Z := list_to_set (minute <$> prev).

(** [images.filter((f) => !existingMinutes.has(f.minute))] *)
Definition notIn (existingMinutes : gset Z) (images : list Frame) : list Frame :=
  filter (fun f => minute f ∉ existingMinutes) images.

(** The updater [(prev) => ...] of [loadImages(isInitial)], closed over
    the [images] the scan returned. *)
Definition mergeFrames (isInitial : bool) (images prev : list Frame) : Update :=
  if negb isInitial && bool_decide (0 < length prev)%nat then
    let existingMinutes := minutesOf prev in
    let newFrames := notIn existingMinutes images in
    if bool_decide (length newFrames = 0%nat) then SameValue
    else NewValue (JsArray.sort byMinute (prev ++ newFrames))
  else NewValue images.

(** [setFrames(updater)] *)
Definition setFrames (isInitial : bool) (images prev : list Frame) : list Frame :=
  commit prev (mergeFrames isInitial images prev).

(** One load cycle: the flag [loadImages] was called with and what its scan
    returned. *)
Definition Cycle : Type := (bool * list Frame)%type.

(** The store after a run of load cycles, oldest first. *)
Definition afterCycles (store : list Frame) (cycles : list Cycle) : list Frame :=
  foldl (fun st c => setFrames c.1 c.2 st) store cycles.

(** [images] is what a scan of [printer] with the views' arguments
    ([count = 60], [maxGap = 10]) returns, on some network at some minute. *)
Definition IsDiscovery (printer : PrinterId) (images : list Frame) : Prop :=
  exists (net : Network) (currentMinute : Z),
    findRecentImages net printer currentMinute 60 10 = Some images.

(** Every ordinal of [images] is in the store already. *)
Definition allPresent (images prev : list Frame) : Prop :=
  forall f, f ∈ images -> minute f ∈ minute <$> prev.

(** Ordinals strictly increasing, hence without duplicates. *)
Definition StrictlyAscending (l : list Frame) : Prop :=
  StronglySorted Z.lt (minute <$> l).

End FrameStore.

(** ** The live-loop view: auto-start, loop over the last ten frames *)

Module LiveView.
Import ImageService FrameStore.

Definition LOOP_COUNT : nat := 10.
Definition LOOP_SPEED : Z := 500.

(** The component's state, and the [loadImages] calls whose scan has not
    returned yet (each with its [isInitial]). *)
Record State : Type := {
  frames : list Frame;
  loopIndex : Z;
  loading : bool;
  live : bool;
  inFlight : list bool
}.

(** [frames.slice(-LOOP_COUNT)] *)
Definition loopFrames (s : State) : list Frame :=
  JsArray.sliceLast LOOP_COUNT (frames s).

(** [loopFrames.length > 0 ? loopIndex % loopFrames.length : 0]; [%] is the
    truncating remainder. *)
Definition safeIndex (s : State) : Z :=
  if bool_decide (0 < length (loopFrames s))%nat
  then Z.rem (loopIndex s) (Z.of_nat (length (loopFrames s)))
  else 0.

(** [loopFrames[safeIndex] ?? null] *)
Definition currentFrame (s : State) : option Frame :=
  if bool_decide (safeIndex s < 0) then None
  else loopFrames s !! Z.to_nat (safeIndex s).

(** The refresh effect keeps an interval exactly while [live]. *)
Definition refreshTimer (s : State) : bool := live s.

(** The loop effect (dependencies [live] and [loopFrames.length]) keeps an
    interval unless [!live || loopFrames.length <= 1]; its callback closes
    over the length of the render that installed it. *)
Definition loopTimer (s : State) : option Z :=
  if negb (live s) || bool_decide (length (loopFrames s) <= 1)%nat then None
  else Some (Z.of_nat (length (loopFrames s))).

(** The branch of the render that is returned. *)
Inductive Rendered : Type :=
  | ShowLoading
  | ShowNoImages
  | ShowPaused (shown : option Frame)
  | ShowLive (shown : option Frame) (total : nat).

Definition render (s : State) : Rendered :=
  if loading s then ShowLoading
  else if bool_decide (length (frames s) = 0%nat) then ShowNoImages
  else if negb (live s) then ShowPaused (currentFrame s)
  else ShowLive (currentFrame s) (length (frames s)).

Inductive Event : Type :=
  | RefreshTick
  | LoopTick
  | Resolved (call : nat) (images : list Frame)
  | StartFeed
  | StopFeed.

(** State after mount: the initial [useState] values and the auto-start
    effect's [loadImages(true)]. *)
Definition mount : State :=
  {| frames := []; loopIndex := 0; loading := true; live := true; inFlight := [true] |}.

(** One event handled to completion; [None] when the event cannot occur in
    [s] (no such timer, no such pending call, button not rendered). *)
Definition step (s : State) (e : Event) : option State :=
  match e with
  | RefreshTick =>
      if refreshTimer s then
        Some {| frames := frames s; loopIndex := loopIndex s; loading := loading s;
                live := live s; inFlight := inFlight s ++ [false] |}
      else None
  | LoopTick =>
      match loopTimer s with
      | Some len =>
          Some {| frames := frames s; loopIndex := Z.rem (loopIndex s + 1) len;
                  loading := loading s; live := live s; inFlight := inFlight s |}
      | None => None
      end
  | Resolved call images =>
      match inFlight s !! call with
      | Some isInitial =>
          Some {| frames := setFrames isInitial images (frames s);
                  loopIndex := loopIndex s;
                  loading := if isInitial then false else loading s;
                  live := live s;
                  inFlight := delete call (inFlight s) |}
      | None => None
      end
  | StartFeed =>
      match render s with
      | ShowPaused _ =>
          Some {| frames := frames s; loopIndex := loopIndex s; loading := loading s;
                  live := true; inFlight := inFlight s ++ [false] |}
      | _ => None
      end
  | StopFeed =>
      match render s with
      | ShowLive _ _ =>
          Some {| frames := frames s; loopIndex := loopIndex s; loading := loading s;
                  live := false; inFlight := inFlight s |}
      | _ => None
      end
  end.

(** A run of events from [s]; [None] as soon as one cannot occur. *)
Fixpoint run (s : State) (es : list Event) : option State :=
  match es with
  | [] => Some s
  | e :: es' =>
      match step s e with
      | Some s' => run s' es'
      | None => None
      end
  end.

(** A first load of three frames, two turns of the loop and a refresh on
    its way. *)
Definition exampleEvents : list Event :=
  [ Resolved 0 [frameAt h2c 10; frameAt h2c 11; frameAt h2c 12];
    LoopTick; LoopTick; RefreshTick ].

Definition exampleState : State :=
  {| frames := [frameAt h2c 10; frameAt h2c 11; frameAt h2c 12];
     loopIndex := 2; loading := false; live := true; inFlight := [false] |}.

(** The same view once that refresh brought the frames at 12 and 13. *)
Definition exampleMerged : State :=
  {| frames := [frameAt h2c 10; frameAt h2c 11; frameAt h2c 12; frameAt h2c 13];
     loopIndex := 2; loading := false; live := true; inFlight := [] |}.

Section Reach.
Variable printer : PrinterId.

(** What the environment can deliver: a pending call resolves with what
    its scan returned. *)
Definition admissible (e : Event) : Prop :=
  match e with
  | Resolved _ images => IsDiscovery printer images
  | _ => True
  end.

Inductive reachable : State -> Prop :=
  | reach_mount : reachable mount
  | reach_step s e s' :
      reachable s -> admissible e -> step s e = Some s' -> reachable s'.
End Reach.

End LiveView.

(** ** The start/stop view: manual start, scrubbing player, refresh while live *)

Module HybridView.
Import ImageService FrameStore.

Record State : Type := {
  frames : list Frame;
  currentIndex : Z;
  playing : bool;
  loading : bool;
  speed : Z;
  live : bool;
  hasLoaded : bool;
  inFlight : list bool
}.

(** The initial [useState] values; nothing is loaded before the user starts. *)
Definition mount : State :=
  {| frames := []; currentIndex := 0; playing := false; loading := false;
     speed := 500; live := false; hasLoaded := false; inFlight := [] |}.

(** [frames[currentIndex]] *)
Definition currentFrame (s : State) : option Frame :=
  if bool_decide (currentIndex s < 0) then None
  else frames s !! Z.to_nat (currentIndex s).

(** The refresh effect installs its interval unless [!live || !hasLoaded];
    [stopFeed] clears the same handle. *)
Definition refreshTimer (s : State) : bool := live s && hasLoaded s.

(** The playback effect installs its interval when
    [playing && frames.length > 1]; the callback closes over
    [frames.length], the interval runs at [speed]. *)
Definition playTimer (s : State) : option (Z * Z) :=
  if playing s && bool_decide (1 < length (frames s))%nat
  then Some (Z.of_nat (length (frames s)), speed s)
  else None.

Inductive Rendered : Type :=
  | ShowStart
  | ShowLoading
  | ShowStopped (shown : option Frame)
  | ShowNoImages
  | ShowPlayer (shown : option Frame).

Definition render (s : State) : Rendered :=
  if negb (live s) && negb (hasLoaded s) then ShowStart
  else if loading s then ShowLoading
  else if negb (live s) && hasLoaded s then ShowStopped (currentFrame s)
  else if bool_decide (length (frames s) = 0%nat) then ShowNoImages
  else ShowPlayer (currentFrame s).

Inductive Event : Type :=
  | StartFeed
  | StopFeed
  | RefreshTick
  | PlayTick
  | Resolved (call : nat) (images : list Frame)
  | Scrub (value : Z)
  | GoToStart
  | PreviousFrame
  | TogglePlay
  | NextFrame
  | GoToLatest
  | SetSpeed (s : Z).

Definition withIndex (s : State) (i : Z) (play : bool) : State :=
  {| frames := frames s; currentIndex := i; playing := play; loading := loading s;
     speed := speed s; live := live s; hasLoaded := hasLoaded s;
     inFlight := inFlight s |}.

Definition callLoadImages (s : State) (isInitial live' : bool) : State :=
  {| frames := frames s; currentIndex := currentIndex s; playing := playing s;
     loading := if isInitial then true else loading s;
     speed := speed s; live := live'; hasLoaded := hasLoaded s;
     inFlight := inFlight s ++ [isInitial] |}.

Definition inPlayer (s : State) : bool :=
  match render s with ShowPlayer _ => true | _ => false end.

(** One event handled to completion; [None] when it cannot occur in [s]. *)
Definition step (s : State) (e : Event) : option State :=
  match e with
  | StartFeed =>
      match render s with
      | ShowStart | ShowStopped _ => Some (callLoadImages s true true)
      | _ => None
      end
  | StopFeed =>
      if inPlayer s then
        Some {| frames := frames s; currentIndex := currentIndex s; playing := false;
                loading := loading s; speed := speed s; live := false;
                hasLoaded := hasLoaded s; inFlight := inFlight s |}
      else None
  | RefreshTick =>
      if refreshTimer s then Some (callLoadImages s false (live s)) else None
  | PlayTick =>
      match playTimer s with
      | Some (len, _) =>
          Some (withIndex s
                  (if bool_decide (currentIndex s >= len - 1) then 0
                   else currentIndex s + 1)
                  (playing s))
      | None => None
      end
  | Resolved call images =>
      match inFlight s !! call with
      | Some isInitial =>
          Some {| frames := setFrames isInitial images (frames s);
                  currentIndex :=
                    if isInitial then
                      (if bool_decide (0 < length images)%nat
                       then Z.of_nat (length images) - 1 else 0)
                    else currentIndex s;
                  playing := playing s;
                  loading := if isInitial then false else loading s;
                  speed := speed s;
                  live := live s;
                  hasLoaded := if isInitial then true else hasLoaded s;
                  inFlight := delete call (inFlight s) |}
      | None => None
      end
  | Scrub value =>
      if inPlayer s && bool_decide (0 <= value <= Z.of_nat (length (frames s)) - 1)
      then Some (withIndex s value false) else None
  | GoToStart =>
      if inPlayer s then Some (withIndex s 0 false) else None
  | PreviousFrame =>
      if inPlayer s then Some (withIndex s (Z.max 0 (currentIndex s - 1)) false)
      else None
  | TogglePlay =>
      if inPlayer s then Some (withIndex s (currentIndex s) (negb (playing s)))
      else None
  | NextFrame =>
      if inPlayer s then
        Some (withIndex s (Z.min (Z.of_nat (length (frames s)) - 1) (currentIndex s + 1)) false)
      else None
  | GoToLatest =>
      if inPlayer s then Some (withIndex s (Z.of_nat (length (frames s)) - 1) false)
      else None
  | SetSpeed v =>
      if inPlayer s && bool_decide (v ∈ [1000; 500; 200]) then
        Some {| frames := frames s; currentIndex := currentIndex s;
                playing := playing s; loading := loading s; speed := v;
                live := live s; hasLoaded := hasLoaded s; inFlight := inFlight s |}
      else None
  end.

(** A run of events from [s]; [None] as soon as one cannot occur. *)
Fixpoint run (s : State) (es : list Event) : option State :=
  match es with
  | [] => Some s
  | e :: es' =>
      match step s e with
      | Some s' => run s' es'
      | None => None
      end
  end.

Section Reach.
Variable printer : PrinterId.

Definition admissible (e : Event) : Prop :=
  match e with
  | Resolved _ images => IsDiscovery printer images
  | _ => True
  end.

Inductive reachable : State -> Prop :=
  | reach_mount : reachable mount
  | reach_step s e s' :
      reachable s -> admissible e -> step s e = Some s' -> reachable s'.
End Reach.

(** The view is stopped: the user pressed Stop and has not started again. *)
Definition stopped (s : State) : Prop := live s = false /\ playing s = false.

(** A session in which the user stops the feed while a refresh is on its
    way: start, first load of the frames at 10 and 12, a refresh tick, stop. *)
Definition firstLoad : list Frame := [frameAt h2c 10; frameAt h2c 12].

Definition stopDuringRefresh : list Event :=
  [StartFeed; Resolved 0 firstLoad; RefreshTick; StopFeed].

(** The player after the first load, showing the newest frame. *)
Definition playerExample : State :=
  {| frames := firstLoad; currentIndex := 1; playing := false;
     loading := false; speed := 500; live := true;
     hasLoaded := true; inFlight := [] |}.

(** What the scan of that refresh returns, later. *)
Definition lateRefresh : list Frame :=
  [frameAt h2c 11; frameAt h2c 12; frameAt h2c 13].

End HybridView.

(** ** hooks/useOneDriveImages.ts: discovery from a folder listing *)

Module OneDrive.

Record PrinterImages : Type := { name : string; frames : list string }.

(** [OneDriveChild]; a field that is absent is [None]. *)
Record OneDriveChild : Type := {
  child_name : string;
  microsoft_graph_downloadUrl : option string;
  content_downloadUrl : option string
}.

(** *** The pattern [/^(.+)-(\d+)\.jpg$/i]

    Names are strings of 8-bit characters here, so of the line terminators
    that [.] refuses only line feed and carriage return exist. *)

Definition isDigit (c : ascii) : bool := bool_decide (is_Some (Ascii.is_nat c)).

Definition isLineTerminator (c : ascii) : bool :=
  bool_decide (c = "010"%char) || bool_decide (c = "013"%char).

(** A letter of the pattern under the [i] flag. *)
Definition eqIgnoreCase (lower upper c : ascii) : bool :=
  bool_decide (c = lower) || bool_decide (c = upper).

(** The longest prefix of [l] satisfying [p], and the rest. *)
Fixpoint span {A : Type} (p : A -> bool) (l : list A) : list A * list A :=
  match l with
  | [] => ([], [])
  | x :: xs => if p x then let '(a, b) := span p xs in (x :: a, b) else ([], l)
  end.

(** [name.match(...)]: the two groups, or [None] for [null]. The name is
    read from its end: the extension, then the digits up to the last [-],
    then what [.+] takes. As the digits and the extension hold no [-], this
    is the only way the pattern can match, hence also the greedy one. *)
Definition matchName (s : string) : option (string * string) :=
  match reverse (String.list_ascii_of_string s) with
  | g :: p :: j :: dot :: rest =>
      if eqIgnoreCase "g" "G" g && eqIgnoreCase "p" "P" p
         && eqIgnoreCase "j" "J" j && bool_decide (dot = "."%char) then
        match span isDigit rest with
        | (digits, dash :: pre) =>
            if bool_decide (dash = "-"%char)
               && bool_decide (digits <> []) && bool_decide (pre <> [])
               && forallb (fun c => negb (isLineTerminator c)) pre
            then Some (String.string_of_list_ascii (reverse pre),
                       String.string_of_list_ascii (reverse digits))
            else None
        | (_, []) => None
        end
      else None
  | _ => None
  end.

(** The pattern read as a grammar, to compare [matchName] with: a name
    matches with groups [prefix] and [digits] when it is [prefix], a dash,
    [digits], a dot and the letters j, p, g in either case, where [prefix]
    is not empty and holds no line terminator and [digits] is a non-empty
    run of decimal digits. *)
Definition matchesPattern (s prefix digits : string) : Prop :=
  exists j p g : ascii,
    s = prefix +:+ "-" +:+ digits +:+ "." +:+ String j (String p (String g ""))
    /\ eqIgnoreCase "j" "J" j = true
    /\ eqIgnoreCase "p" "P" p = true
    /\ eqIgnoreCase "g" "G" g = true
    /\ prefix <> ""
    /\ forallb (fun c => negb (isLineTerminator c)) (String.list_ascii_of_string prefix) = true
    /\ digits <> ""
    /\ forallb isDigit (String.list_ascii_of_string digits) = true.

Definition digitValue (c : ascii) : Z :=
  match Ascii.is_nat c with Some d => Z.of_nat d | None => 0 end.

(** [parseInt(digits, 10)] on a non-empty string of decimal digits, which
    is what the second group always is. *)
Definition parseInt (digits : string) : Z :=
  foldl (fun acc c => acc * 10 + digitValue c) 0 (String.list_ascii_of_string digits).

(** *** The [Map] from printer name to frames, in insertion order *)

Record NumUrl : Type := { num : Z; url : string }.

Definition PrinterMap : Type := list (string * list NumUrl).

Definition mapHas (k : string) (m : PrinterMap) : bool := bool_decide (k ∈ m.*1).

(** [m.set(k, v)]: a new key goes last, a known key keeps its place. *)
Fixpoint mapSet (k : string) (v : list NumUrl) (m : PrinterMap) : PrinterMap :=
  match m with
  | [] => [(k, v)]
  | (k', v') :: m' =>
      if bool_decide (k' = k) then (k, v) :: m' else (k', v') :: mapSet k v m'
  end.

(** [m.get(k)!.push(x)]: the array held under [k] grows in place. *)
Fixpoint mapPush (k : string) (x : NumUrl) (m : PrinterMap) : PrinterMap :=
  match m with
  | [] => []
  | (k', v') :: m' =>
      if bool_decide (k' = k) then (k', v' ++ [x]) :: m' else (k', v') :: mapPush k x m'
  end.

(** A string that counts as true: present and not empty. *)
Definition truthy (o : option string) : option string :=
  match o with
  | Some s => if bool_decide (s = "") then None else Some s
  | None => None
  end.

(** [child['@content.downloadUrl'] || child['@microsoft.graph.downloadUrl'] || ''] *)
Definition downloadUrlOf (child : OneDriveChild) : string :=
  match truthy (content_downloadUrl child) with
  | Some u => u
  | None =>
      match truthy (microsoft_graph_downloadUrl child) with
      | Some u => u
      | None => ""
      end
  end.

(** The body of [for (const child of children)]. *)
Definition groupStep (printerMap : PrinterMap) (child : OneDriveChild) : PrinterMap :=
  match matchName (child_name child) with
  | None => printerMap
  | Some (printerName, digits) =>
      let frameNum := parseInt digits in
      let downloadUrl := downloadUrlOf child in
      if bool_decide (downloadUrl = "") then printerMap
      else
        let printerMap :=
          if mapHas printerName printerMap then printerMap
          else mapSet printerName [] printerMap in
        mapPush printerName {| num := frameNum; url := downloadUrl |} printerMap
  end.

Definition groupChildren (children : list OneDriveChild) : PrinterMap :=
  foldl groupStep [] children.

Definition byNum (a b : NumUrl) : Z := num a - num b.

(** Each group after [frames.sort((a, b) => a.num - b.num)], in the order
    the [Map] is iterated. *)
Definition sortedGroups (printerMap : PrinterMap) : PrinterMap :=
  (fun g => (g.1, JsArray.sort byNum g.2)) <$> printerMap.

(** What the hook can be told by [fetch] and [res.json()]. *)
Inductive Thrown : Type :=
  | ErrorObject (message : string)
  | OtherValue.

Inductive Json : Type :=
  | JsonInvalid (err : Thrown)
  | JsonData (value : option (list OneDriveChild)).

Inductive FetchResult : Type :=
  | Rejected (err : Thrown)
  | Responded (ok : bool) (status : Z) (body : Json).

Record State : Type := {
  printers : list PrinterImages;
  loading : bool;
  error : option string;
  cancelled : bool
}.

(** After mount: the initial [useState] values, the fetch under way. *)
Definition mount : State :=
  {| printers := []; loading := true; error := None; cancelled := false |}.

Inductive Event : Type :=
  | Unmount
  | Settled (r : FetchResult).

(** The collation of the runtime decides [localeCompare]; it is not part of
    the repository. *)
Section Collation.
Variable localeCompare : string -> string -> Z.

Definition byName (a b : PrinterImages) : Z := localeCompare (name a) (name b).

(** From the filled [Map] to the sorted [result]. *)
Definition buildResult (printerMap : PrinterMap) : list PrinterImages :=
  JsArray.sort byName
    ((fun g => {| name := g.1; frames := url <$> g.2 |}) <$> sortedGroups printerMap).

(** The [try] block up to the first [cancelled] test: what is thrown, or
    the grouped listing. *)
Definition fetchImages (r : FetchResult) : Thrown + PrinterMap :=
  match r with
  | Rejected err => inl err
  | Responded false status _ =>
      inl (ErrorObject ("OneDrive API returned " +:+ pretty status))
  | Responded true _ (JsonInvalid err) => inl err
  | Responded true _ (JsonData value) =>
      inr (groupChildren (default [] value))
  end.

(** The listing the hook ends up with when nothing is cancelled. *)
Definition listing (children : list OneDriveChild) : list PrinterImages :=
  buildResult (groupChildren children).

Definition step (s : State) (e : Event) : State :=
  match e with
  | Unmount =>
      {| printers := printers s; loading := loading s; error := error s;
         cancelled := true |}
  | Settled r =>
      match fetchImages r with
      | inr printerMap =>
          if cancelled s then s
          else {| printers := buildResult printerMap; loading := false;
                  error := error s; cancelled := cancelled s |}
      | inl err =>
          if cancelled s then s
          else {| printers := printers s; loading := false;
                  error := Some (match err with
                                 | ErrorObject message => message
                                 | OtherValue => "Failed to load images"
                                 end);
                  cancelled := cancelled s |}
      end
  end.
End Collation.

(** An entry that carries a name and nothing else. *)
Definition bare (n : string) : OneDriveChild :=
  {| child_name := n; microsoft_graph_downloadUrl := None;
     content_downloadUrl := None |}.

(** A collation to run examples with: order by character codes. *)
Definition codeOrder (a b : string) : Z :=
  match String.compare a b with
  | Lt => -1
  | Eq => 0
  | Gt => 1
  end.

Definition child (n : string) (u : string) : OneDriveChild :=
  {| child_name := n; microsoft_graph_downloadUrl := None;
     content_downloadUrl := Some u |}.

End OneDrive.

(** ** Terms to speak about a scan *)

Module ScanTerms.
Import ImageService.

(** The image of [printer] at ordinal [m] loads. *)
Definition hit (net : Network) (printer : PrinterId) (m : Z) : bool :=
  imageExists net (getImageUrl printer m).

(** Ordinals read from the newest back: each lies below its newer
    neighbour, by [gap] at most; [newer] stands in for the neighbour of
    the first. *)
Fixpoint spaced (gap newer : Z) (ordinals : list Z) : Prop :=
  match ordinals with
  | [] => True
  | m :: rest => 0 < newer - m <= gap /\ spaced gap m rest
  end.

End ScanTerms.

(** ** Terms to speak about a store *)

Module StoreTerms.
Import ImageService FrameStore.

(** Every frame of [l] is a frame of [printer]: an ordinal from 0 up, with
    the locator of this ordinal. *)
Definition ofPrinter (printer : PrinterId) (l : list Frame) : Prop :=
  Forall (fun f => f = frameAt printer (minute f) /\ 0 <= minute f) l.

End StoreTerms.

(** ** Terms to speak about pending loads *)

Module ViewTerms.

(** How many of the pending [loadImages] calls are initial ones. *)
Definition pendingInitial (inFlight : list bool) : nat :=
  length (filter (fun isInitial => isInitial = true) inFlight).

(** The index of the start/stop view stays inside the store: between 0
    and the last position, and at 0 while the store is empty. *)
Definition indexInStore (s : HybridView.State) : Prop :=
  0 <= HybridView.currentIndex s
    <= Z.max (Z.of_nat (length (HybridView.frames s)) - 1) 0.

(** The loading screen of the start/stop view and the pending first load
    go together. *)
Definition loadingMatchesPending (s : HybridView.State) : Prop :=
  pendingInitial (HybridView.inFlight s)
  = (if HybridView.loading s then 1 else 0)%nat
  /\ (HybridView.loading s = true -> HybridView.live s = true).

End ViewTerms.

(** ** components/PrinterView.tsx and the App over a listing *)

Module ListingView.
Import OneDrive.

Definition FRAME_INTERVAL_MS : Z := 10000.

(** The component: its [printer] prop and its [currentFrame] state. *)
Record State : Type := { printer : PrinterImages; currentFrame : Z }.

Definition totalFrames (s : State) : Z := Z.of_nat (length (frames (printer s))).

Definition mount (p : PrinterImages) : State := {| printer := p; currentFrame := 0 |}.

(** The image drawn opaque: the one whose index is [currentFrame]. *)
Definition shown (s : State) : option string :=
  if bool_decide (currentFrame s < 0) then None
  else frames (printer s) !! Z.to_nat (currentFrame s).

Inductive Event : Type :=
  | Tick
  | GoToFrame (index : nat)
  | Rerender (p : PrinterImages).

(** One event handled to completion. The interval exists unless
    [totalFrames <= 1] and closes over [totalFrames]; there is one button
    per frame; a new [printer] prop resets the frame when its name differs. *)
Definition step (s : State) (e : Event) : option State :=
  match e with
  | Tick =>
      if bool_decide (totalFrames s <= 1) then None
      else Some {| printer := printer s;
                   currentFrame := Z.rem (currentFrame s + 1) (totalFrames s) |}
  | GoToFrame index =>
      if bool_decide (index < length (frames (printer s)))%nat
      then Some {| printer := printer s; currentFrame := Z.of_nat index |}
      else None
  | Rerender p =>
      Some {| printer := p;
              currentFrame := if bool_decide (name p = name (printer s))
                              then currentFrame s else 0 |}
  end.

Fixpoint run (s : State) (es : list Event) : option State :=
  match es with
  | [] => Some s
  | e :: es' =>
      match step s e with
      | Some s' => run s' es'
      | None => None
      end
  end.

(** The index points at a frame, or is 0 when there is none. *)
Definition inRange (s : State) : Prop :=
  0 <= currentFrame s <= Z.max (totalFrames s - 1) 0.

(** [visiblePrinters] of the App: every printer under ['all'], otherwise
    those with the chosen name. *)
Definition visiblePrinters (viewMode : string) (printers : list PrinterImages)
    : list PrinterImages :=
  if bool_decide (viewMode = "all") then printers
  else filter (fun p => name p = viewMode) printers.

End ListingView.

(** ** Terms to speak about a listing *)

Module ListingTerms.
Import OneDrive.

(** What the loop takes from one entry: the printer name and the frame, or
    nothing when the name does not match or there is no URL. *)
Definition accepted (c : OneDriveChild) : option (string * NumUrl) :=
  match matchName (child_name c) with
  | None => None
  | Some (printerName, digits) =>
      if bool_decide (downloadUrlOf c = "") then None
      else Some (printerName, {| num := parseInt digits; url := downloadUrlOf c |})
  end.

(** The frames taken from the entries named for [printerName], in the
    order of the listing. *)
Definition framesFor (printerName : string) (children : list OneDriveChild)
    : list NumUrl :=
  snd <$> filter (fun e : string * NumUrl => e.1 = printerName) (omap accepted children).

(** What the [Map] holds after the loop has run over [children]: each key
    once, under it the frames taken for this name, and a key for every name
    a frame was taken for. *)
Definition holds (m : PrinterMap) (children : list OneDriveChild) : Prop :=
  NoDup m.*1
  /\ Forall (fun g : string * list NumUrl =>
               g.2 = framesFor g.1 children /\ g.2 <> []) m
  /\ (forall k, framesFor k children <> [] -> k ∈ m.*1).

(** A listing with a printer that is called "all". *)
Definition threePrinters : list OneDriveChild :=
  [child "h2c-1.jpg" "a"; child "h2d-2.jpg" "b"; child "all-1.jpg" "z"].

(** A comparator that orders any two names one way or the other. *)
Definition totalOrder (cmp : string -> string -> Z) : Prop :=
  forall a b, cmp a b <= 0 \/ cmp b a <= 0.

End ListingTerms.

(** ** The time label of a frame ([formatMinute] of the probing views) *)

Module FrameLabel.

(** [s.padStart(2, '0')] *)
Definition padStart2 (s : string) : string :=
  match String.length s with
  | O => "00"
  | S O => "0" +:+ s
  | _ => s
  end.

(** [formatMinute]: [Math.floor(m / 60)] and [m % 60], each printed in
    decimal and padded to two characters, with a colon between. *)
Definition formatMinute (m : Z) : string :=
  let h := m `div` 60 in
  let min := Z.rem m 60 in
  padStart2 (pretty h) +:+ ":" +:+ padStart2 (pretty min).

(** The character of a decimal digit. *)
Definition digitChar (d : Z) : ascii := ascii_of_nat (48 + Z.to_nat d).

(** A clock reading written with two digits for the hours and two for the
    minutes. *)
Definition clockLabel (hours minutes : Z) : string :=
  String (digitChar (hours `div` 10)) (String (digitChar (hours `mod` 10))
    (String ":" (String (digitChar (minutes `div` 10))
                   (String (digitChar (minutes `mod` 10)) "")))).

End FrameLabel.

(** ** The share token of the listing request ([encodeShareUrl]) *)

Module ShareToken.

Definition SHARE_URL : string :=
  "https://1drv.ms/f/c/891de2a4f284c649/IgD9zArrV9A9Tb2qqP02uLM9AXUWJxNt-H7sfMQW2fs7ATc?e=eP7aMW".

(** *** [btoa]: base64 with padding, over the character codes *)

Definition base64Alphabet : list ascii :=
  String.list_ascii_of_string
    "ABCDEFGHIJKLMNOPQRSTUVWXYZabcdefghijklmnopqrstuvwxyz0123456789+/".

Definition base64Char (i : nat) : ascii := nth i base64Alphabet "A"%char.

(** The bytes cut into groups of six bits, the last group filled with
    zero bits. *)
Fixpoint sextets (bytes : list nat) : list nat :=
  match bytes with
  | [] => []
  | [a] => [a / 4; (a mod 4) * 16]%nat
  | [a; b] => [a / 4; (a mod 4) * 16 + b / 16; (b mod 16) * 4]%nat
  | a :: b :: c :: rest =>
      [a / 4; (a mod 4) * 16 + b / 16; (b mod 16) * 4 + c / 64; c mod 64]%nat
      ++ sextets rest
  end.

(** One [=] for each byte missing from the last group of three. *)
Definition padding (bytes : list nat) : list ascii :=
  replicate ((3 - length bytes mod 3) mod 3) "="%char.

Definition btoaBytes (bytes : list nat) : list ascii :=
  (base64Char <$> sextets bytes) ++ padding bytes.

Definition btoa (s : string) : string :=
  String.string_of_list_ascii
    (btoaBytes (nat_of_ascii <$> String.list_ascii_of_string s)).

(** *** The three [replace] calls *)

(** [.replace(/=+$/, '')]: the run of [=] at the end goes. *)
Definition stripPadding (l : list ascii) : list ascii :=
  reverse (OneDrive.span (fun c => bool_decide (c = "="%char)) (reverse l)).2.

(** [.replace(/x/g, y)] for a pattern of one character. *)
Definition replaceAll (x y : ascii) (l : list ascii) : list ascii :=
  (fun c => if bool_decide (c = x) then y else c) <$> l.

Definition encodeShareUrl (url : string) : string :=
  let base64 := btoa url in
  let encoded :=
    replaceAll "+" "-"
      (replaceAll "/" "_" (stripPadding (String.list_ascii_of_string base64))) in
  "u!" +:+ String.string_of_list_ascii encoded.

(** A character that needs no escaping in a URL path: a letter, a digit,
    [-] or [_]. *)
Definition urlSafeChar (c : ascii) : bool :=
  let n := nat_of_ascii c in
  bool_decide (65 <= n <= 90)%nat || bool_decide (97 <= n <= 122)%nat
  || bool_decide (48 <= n <= 57)%nat
  || bool_decide (c = "-"%char) || bool_decide (c = "_"%char).

(** The character codes of a string. *)
Definition bytesOf (s : string) : list nat :=
  nat_of_ascii <$> String.list_ascii_of_string s.

(** The character a group of six bits ends up as in the token. *)
Definition tokenChar (i : nat) : ascii :=
  let c := base64Char i in
  let c := if bool_decide (c = "/"%char) then "_"%char else c in
  if bool_decide (c = "+"%char) then "-"%char else c.

(** Back from groups of six bits to bytes. *)
Fixpoint unsextets (groups : list nat) : list nat :=
  match groups with
  | x :: y :: z :: w :: rest =>
      [x * 4 + y / 16; (y mod 16) * 16 + z / 4; (z mod 4) * 64 + w]%nat
      ++ unsextets rest
  | [x; y; z] => [x * 4 + y / 16; (y mod 16) * 16 + z / 4]%nat
  | [x; y] => [x * 4 + y / 16]%nat
  | _ => []
  end.

End ShareToken.

(** ** The plain player: every load replaces the store

    The state updates of one resolved load ([setFrames], [setCurrentIndex],
    [setLoading]) are applied together, as React batches them. *)

Module PlainView.
Import ImageService.

(** The component's state, and how many [loadImages] calls have not
    returned yet. *)
Record State : Type := {
  frames : list Frame;
  currentIndex : Z;
  playing : bool;
  loading : bool;
  speed : Z;
  inFlight : nat
}.

(** After mount: the initial [useState] values and the first
    [loadImages()] of the refresh effect. *)
Definition mount : State :=
  {| frames := []; currentIndex := 0; playing := false; loading := true;
     speed := 500; inFlight := 1 |}.

(** [frames[currentIndex]] *)
Definition currentFrame (s : State) : option Frame :=
  if bool_decide (currentIndex s < 0) then None
  else frames s !! Z.to_nat (currentIndex s).

Inductive Rendered : Type :=
  | ShowLoading
  | ShowNoImages
  | ShowPlayer (shown : option Frame).

Definition render (s : State) : Rendered :=
  if loading s then ShowLoading
  else if bool_decide (length (frames s) = 0%nat) then ShowNoImages
  else ShowPlayer (currentFrame s).

Definition inPlayer (s : State) : bool :=
  match render s with ShowPlayer _ => true | _ => false end.

Inductive Event : Type :=
  | RefreshTick
  | PlayTick
  | Resolved (images : list Frame)
  | Scrub (value : Z)
  | GoToStart
  | PreviousFrame
  | TogglePlay
  | NextFrame
  | GoToLatest
  | SetSpeed (v : Z).

Definition withIndex (s : State) (i : Z) (play : bool) : State :=
  {| frames := frames s; currentIndex := i; playing := play; loading := loading s;
     speed := speed s; inFlight := inFlight s |}.

(** One event handled to completion; [None] when it cannot occur in [s].
    The refresh interval runs from mount on; the playback interval exists
    when [playing && frames.length > 1]. *)
Definition step (s : State) (e : Event) : option State :=
  match e with
  | RefreshTick =>
      Some {| frames := frames s; currentIndex := currentIndex s;
              playing := playing s; loading := true; speed := speed s;
              inFlight := S (inFlight s) |}
  | PlayTick =>
      if playing s && bool_decide (1 < length (frames s))%nat then
        Some (withIndex s
                (if bool_decide (currentIndex s >= Z.of_nat (length (frames s)) - 1)
                 then 0 else currentIndex s + 1)
                (playing s))
      else None
  | Resolved images =>
      match inFlight s with
      | O => None
      | S pending =>
          Some {| frames := images;
                  currentIndex := if bool_decide (0 < length images)%nat
                                  then Z.of_nat (length images) - 1 else 0;
                  playing := playing s; loading := false; speed := speed s;
                  inFlight := pending |}
      end
  | Scrub value =>
      if inPlayer s && bool_decide (0 <= value <= Z.of_nat (length (frames s)) - 1)
      then Some (withIndex s value false) else None
  | GoToStart =>
      if inPlayer s then Some (withIndex s 0 false) else None
  | PreviousFrame =>
      if inPlayer s then Some (withIndex s (Z.max 0 (currentIndex s - 1)) false)
      else None
  | TogglePlay =>
      if inPlayer s then Some (withIndex s (currentIndex s) (negb (playing s)))
      else None
  | NextFrame =>
      if inPlayer s then
        Some (withIndex s (Z.min (Z.of_nat (length (frames s)) - 1) (currentIndex s + 1)) false)
      else None
  | GoToLatest =>
      if inPlayer s then Some (withIndex s (Z.of_nat (length (frames s)) - 1) false)
      else None
  | SetSpeed v =>
      if inPlayer s && bool_decide (v ∈ [1000; 500; 200]) then
        Some {| frames := frames s; currentIndex := currentIndex s;
                playing := playing s; loading := loading s; speed := v;
                inFlight := inFlight s |}
      else None
  end.

Fixpoint run (s : State) (es : list Event) : option State :=
  match es with
  | [] => Some s
  | e :: es' =>
      match step s e with
      | Some s' => run s' es'
      | None => None
      end
  end.

(** The index lies inside the store, and a loading screen has a load
    behind it. *)
Definition sound (s : State) : Prop :=
  0 <= currentIndex s <= Z.max (Z.of_nat (length (frames s)) - 1) 0
  /\ (loading s = true -> (0 < inFlight s)%nat).

End PlainView.

(** * Properties *)

(** ** The backward scan *)

Module ScanProofs.
Import ImageService.

(** Membership of a number in a list written out. *)
Ltac in_list := rewrite ?not_elem_of_cons, ?elem_of_cons, ?elem_of_nil; lia.

Lemma downFrom_S start n : downFrom start (S n) = start :: downFrom (start - 1) n.
Proof.
  unfold downFrom. simpl. rewrite <- fmap_S_seq, <- list_fmap_compose.
  f_equal; [lia|]. apply list_fmap_ext. intros ? i _. simpl. lia.
Qed.

Lemma downFrom_length start n : length (downFrom start n) = n.
Proof. unfold downFrom. by rewrite length_fmap, length_seq. Qed.

Lemma downFrom_bounds start n :
  Forall (fun m => start - Z.of_nat n < m <= start) (downFrom start n).
Proof.
  unfold downFrom. rewrite Forall_fmap. apply Forall_forall.
  intros i [_ Hi]%elem_of_seq. simpl. lia.
Qed.

Section Loop.
Variable net : Network.
Variable printer : PrinterId.
Variables count maxGap : Z.

Local Abbreviation loop := (scanLoop net printer count maxGap).
Local Abbreviation frameAt m := (ImageService.frameAt printer m).

(** The four ways one iteration can go. *)

Lemma loop_exit fuel m res c pr :
  ~ (m >= 0 /\ Z.of_nat (length res) < count) ->
  loop (S fuel) m res c pr = Some {| results := res; probed := pr |}.
Proof.
  intros Hn. simpl.
  destruct (bool_decide_reflect (m >= 0)); simpl; [|done].
  rewrite bool_decide_eq_false_2; [done|tauto].
Qed.

Lemma loop_hit fuel m res c pr :
  m >= 0 -> Z.of_nat (length res) < count ->
  imageExists net (getImageUrl printer m) = true ->
  loop (S fuel) m res c pr = loop fuel (m - 1) (res ++ [frameAt m]) 0 (pr ++ [m]).
Proof.
  intros Hm Hc Hx. simpl.
  rewrite !bool_decide_eq_true_2 by done. simpl. by rewrite Hx.
Qed.

Lemma loop_miss fuel m res c pr :
  m >= 0 -> Z.of_nat (length res) < count ->
  imageExists net (getImageUrl printer m) = false ->
  c + 1 < maxGap ->
  loop (S fuel) m res c pr = loop fuel (m - 1) res (c + 1) (pr ++ [m]).
Proof.
  intros Hm Hc Hx Hg. simpl.
  rewrite !bool_decide_eq_true_2 by done. simpl. rewrite Hx.
  rewrite bool_decide_eq_false_2; [done|lia].
Qed.

Lemma loop_break fuel m res c pr :
  m >= 0 -> Z.of_nat (length res) < count ->
  imageExists net (getImageUrl printer m) = false ->
  c + 1 >= maxGap ->
  loop (S fuel) m res c pr = Some {| results := res; probed := pr ++ [m] |}.
Proof.
  intros Hm Hc Hx Hg. simpl.
  rewrite !bool_decide_eq_true_2 by done. simpl. by rewrite Hx.
Qed.

(** Case analysis on one iteration, for inductions over the fuel. *)
Lemma loop_cases fuel m res c pr :
  (~ (m >= 0 /\ Z.of_nat (length res) < count)
     /\ loop (S fuel) m res c pr = Some {| results := res; probed := pr |})
  \/ (m >= 0 /\ Z.of_nat (length res) < count
      /\ imageExists net (getImageUrl printer m) = true
      /\ loop (S fuel) m res c pr
         = loop fuel (m - 1) (res ++ [frameAt m]) 0 (pr ++ [m]))
  \/ (m >= 0 /\ Z.of_nat (length res) < count
      /\ imageExists net (getImageUrl printer m) = false /\ c + 1 < maxGap
      /\ loop (S fuel) m res c pr = loop fuel (m - 1) res (c + 1) (pr ++ [m]))
  \/ (m >= 0 /\ Z.of_nat (length res) < count
      /\ imageExists net (getImageUrl printer m) = false /\ c + 1 >= maxGap
      /\ loop (S fuel) m res c pr = Some {| results := res; probed := pr ++ [m] |}).
Proof.
  destruct (decide (m >= 0 /\ Z.of_nat (length res) < count)) as [[Hm Hc]|Hn].
  - destruct (imageExists net (getImageUrl printer m)) eqn:Hx.
    + right; left. eauto using loop_hit.
    + destruct (decide (c + 1 < maxGap)).
      * right; right; left. eauto 6 using loop_miss.
      * right; right; right. repeat split; try done; try lia.
        apply loop_break; try done; lia.
  - left. eauto using loop_exit.
Qed.

(** The loop ends within one iteration per ordinal down to 0, and one
    more test of its condition. *)
Lemma loop_terminates fuel m res c pr :
  (Z.to_nat (m + 1) < fuel)%nat -> is_Some (loop fuel m res c pr).
Proof.
  revert m res c pr. induction fuel as [|fuel IH]; intros m res c pr Hf; [lia|].
  destruct (loop_cases fuel m res c pr)
    as [[_ ->]|[(Hm&_&_&->)|[(Hm&_&_&_&->)|(_&_&_&_&->)]]]; eauto;
    apply IH; lia.
Qed.

(** Hits are collected newest first, below what was collected before,
    each with the locator of its ordinal. *)
Lemma loop_results fuel m res c pr s :
  loop fuel m res c pr = Some s ->
  exists new,
    results s = res ++ new
    /\ StronglySorted Z.gt (minute <$> new)
    /\ Forall (fun f => 0 <= minute f <= m /\ url f = getImageUrl printer (minute f)
                        /\ imageExists net (url f) = true) new.
Proof.
  revert m res c pr. induction fuel as [|fuel IH]; intros m res c pr; [done|].
  destruct (loop_cases fuel m res c pr)
    as [[_ ->]|[(Hm&_&Hx&->)|[(Hm&_&_&_&->)|(_&_&_&_&->)]]]; intros Hs.
  - injection Hs as <-. exists []. simpl. rewrite app_nil_r.
    repeat split; constructor.
  - destruct (IH _ _ _ _ Hs) as (new & Hr & Hsorted & Hall).
    exists (frameAt m :: new). rewrite Hr, <- app_assoc. simpl.
    repeat split.
    + constructor; [done|]. rewrite Forall_fmap.
      eapply Forall_impl; [exact Hall|]. simpl. intros f (? & _). lia.
    + constructor; [simpl; repeat split; try done; lia|].
      eapply Forall_impl; [exact Hall|]. simpl. intros f (? & ? & ?).
      repeat split; try done; lia.
  - destruct (IH _ _ _ _ Hs) as (new & Hr & Hsorted & Hall).
    exists new. repeat split; try done.
    eapply Forall_impl; [exact Hall|]. simpl. intros f (? & ? & ?).
    repeat split; try done; lia.
  - injection Hs as <-. exists []. simpl. rewrite app_nil_r.
    repeat split; constructor.
Qed.

(** The loop never holds more than [count] frames. *)
Lemma loop_count fuel m res c pr s :
  loop fuel m res c pr = Some s ->
  Z.of_nat (length res) <= Z.max count 0 ->
  Z.of_nat (length (results s)) <= Z.max count 0.
Proof.
  revert m res c pr. induction fuel as [|fuel IH]; intros m res c pr; [done|].
  destruct (loop_cases fuel m res c pr)
    as [[_ ->]|[(Hm&Hc&Hx&->)|[(Hm&_&_&_&->)|(_&_&_&_&->)]]]; intros Hs Hl.
  - by injection Hs as <-.
  - apply (IH _ _ _ _ Hs). rewrite length_app. simpl. lia.
  - by apply (IH _ _ _ _ Hs).
  - by injection Hs as <-.
Qed.

(** The probes go down one ordinal at a time from [m] and stay at or
    above 0. *)
Lemma loop_probed fuel m res c pr s :
  loop fuel m res c pr = Some s ->
  exists k : nat,
    probed s = pr ++ downFrom m k
    /\ Z.of_nat k <= Z.max (m + 1) 0.
Proof.
  revert m res c pr. induction fuel as [|fuel IH]; intros m res c pr; [done|].
  destruct (loop_cases fuel m res c pr)
    as [[_ ->]|[(Hm&_&Hx&->)|[(Hm&_&_&_&->)|(Hm&_&_&_&->)]]]; intros Hs.
  - injection Hs as <-. exists 0%nat. simpl. rewrite app_nil_r. split; [done|lia].
  - destruct (IH _ _ _ _ Hs) as (k & -> & Hk). exists (S k).
    rewrite downFrom_S, <- app_assoc. split; [done|lia].
  - destruct (IH _ _ _ _ Hs) as (k & -> & Hk). exists (S k).
    rewrite downFrom_S, <- app_assoc. split; [done|lia].
  - injection Hs as <-. exists 1%nat. rewrite downFrom_S. split; [done|lia].
Qed.

(** Between two hits there are fewer than [maxGap] misses, so the probes
    number at most [maxGap] per frame that may still be collected. *)
Lemma loop_probe_bound fuel m res c pr s :
  1 <= count -> 1 <= maxGap ->
  loop fuel m res c pr = Some s ->
  0 <= c < maxGap ->
  (0 < c -> Z.of_nat (length res) < count) ->
  Z.of_nat (length res) <= count ->
  Z.of_nat (length pr) <= Z.of_nat (length res) * maxGap + c ->
  Z.of_nat (length (probed s)) <= count * maxGap.
Proof.
  intros Hcount Hgap.
  revert m res c pr. induction fuel as [|fuel IH]; intros m res c pr; [done|].
  destruct (loop_cases fuel m res c pr)
    as [[Hn ->]|[(Hm&Hc&Hx&->)|[(Hm&Hc&_&Hg&->)|(Hm&Hc&_&Hg&->)]]];
    intros Hs Hc1 Hc2 Hc3 Hp.
  - injection Hs as <-. simpl.
    destruct (decide (0 < c)); [specialize (Hc2 ltac:(done)); nia|nia].
  - apply (IH _ _ _ _ Hs); rewrite ?length_app; simpl; try lia; nia.
  - apply (IH _ _ _ _ Hs); rewrite ?length_app; simpl; try lia; nia.
  - injection Hs as <-. simpl. rewrite length_app. simpl. nia.
Qed.

(** Only [imageExists] of the network matters to the loop. *)
Lemma loop_ext net' fuel m res c pr :
  (forall u, imageExists net u = imageExists net' u) ->
  loop fuel m res c pr = scanLoop net' printer count maxGap fuel m res c pr.
Proof.
  intros Hext. revert m res c pr.
  induction fuel as [|fuel IH]; intros m res c pr; [done|].
  simpl. rewrite <- Hext. destruct (_ && _); [|done].
  destruct (imageExists _ _); [apply IH|].
  destruct (bool_decide _); [done|apply IH].
Qed.

(** A run of misses that fills the gap ends the scan there. *)
Lemma loop_gap (n : nat) fuel m res c pr :
  c + Z.of_nat (S n) = maxGap -> 0 <= c ->
  Z.of_nat n <= m -> Z.of_nat (length res) < count ->
  (forall i, m - Z.of_nat n <= i <= m ->
             imageExists net (getImageUrl printer i) = false) ->
  (n < fuel)%nat ->
  loop fuel m res c pr
  = Some {| results := res;
            probed := pr ++ downFrom m (S n) |}.
Proof.
  revert fuel m c pr. induction n as [|n IH]; intros fuel m c pr Hg Hc Hm Hl Hmiss Hf.
  - destruct fuel as [|fuel]; [lia|].
    rewrite loop_break; [|lia|done|apply Hmiss; lia|lia].
    by rewrite downFrom_S.
  - destruct fuel as [|fuel]; [lia|].
    rewrite loop_miss; [|lia|done|apply Hmiss; lia|lia].
    rewrite (IH fuel); [|lia|lia|lia|done|intros; apply Hmiss; lia|lia].
    by rewrite (downFrom_S m), <- app_assoc.
Qed.
End Loop.

(** *** Locators *)

Lemma string_length_app (s t : string) :
  String.length (s +:+ t) = (String.length s + String.length t)%nat.
Proof. induction s as [|a s IH]; simpl; [done|by rewrite IH]. Qed.

Lemma string_app_inj_r (t s1 s2 : string) : s1 +:+ t = s2 +:+ t -> s1 = s2.
Proof.
  revert s2. induction s1 as [|a s1 IH]; intros [|b s2] H; simpl in H.
  - done.
  - apply (f_equal String.length) in H. simpl in H.
    rewrite !string_length_app in H. simpl in H. lia.
  - apply (f_equal String.length) in H. simpl in H.
    rewrite !string_length_app in H. simpl in H. lia.
  - injection H as -> H. f_equal. by apply IH.
Qed.

(** Distinct ordinals of one printer have distinct locators. *)
Lemma getImageUrl_inj printer m1 m2 :
  getImageUrl printer m1 = getImageUrl printer m2 -> m1 = m2.
Proof.
  unfold getImageUrl. intros H.
  do 4 apply String.app_inj in H.
  apply string_app_inj_r in H. by apply pretty_Z_inj in H.
Qed.

Lemma hitsAt_spec printer ordinals m :
  imageExists (hitsAt printer ordinals) (getImageUrl printer m) = true
  <-> m ∈ ordinals.
Proof.
  unfold imageExists, hitsAt. case_bool_decide as Hin.
  - split; [intros _|done].
    apply list_elem_of_fmap in Hin as (m' & ->%getImageUrl_inj & Hm'). done.
  - split; [done|]. intros Hm. destruct Hin. by apply list_elem_of_fmap_2.
Qed.

Lemma imageExists_asNotFound net u :
  imageExists net u = imageExists (asNotFound net) u.
Proof. unfold imageExists, asNotFound. by destruct (net u). Qed.

(** *** The scan as a whole *)

Lemma StronglySorted_reverse_gt (l : list Z) :
  StronglySorted Z.gt l -> StronglySorted Z.lt (reverse l).
Proof.
  induction 1 as [|x l Hl IH Hx]; [constructor|].
  rewrite reverse_cons. apply StronglySorted_app_2; [|done|repeat constructor].
  intros a b Ha Hb. apply list_elem_of_singleton in Hb as ->.
  rewrite elem_of_reverse in Ha. rewrite Forall_forall in Hx.
  specialize (Hx a Ha). lia.
Qed.

(** The scan always returns: the fuel of [findRecentImagesTraced] is enough. *)
Lemma findRecentImagesTraced_total net printer start count gap :
  is_Some (findRecentImagesTraced net printer start count gap).
Proof.
  unfold findRecentImagesTraced.
  destruct (loop_terminates net printer count gap (scanFuel start) start [] 0 [])
    as [s ->]; [unfold scanFuel; lia|eauto].
Qed.

Lemma findRecentImages_total net printer start count gap :
  is_Some (findRecentImages net printer start count gap).
Proof.
  unfold findRecentImages.
  destruct (findRecentImagesTraced_total net printer start count gap) as [s ->].
  simpl. eauto.
Qed.

Lemma findRecentImagesTraced_inv net printer start count gap s :
  findRecentImagesTraced net printer start count gap = Some s ->
  exists s0,
    scanLoop net printer count gap (scanFuel start) start [] 0 [] = Some s0
    /\ results s = reverse (results s0) /\ probed s = probed s0.
Proof.
  unfold findRecentImagesTraced. destruct (scanLoop _ _ _ _ _ _ _ _ _) as [s0|]; [|done].
  intros [= <-]. eauto.
Qed.

(** What a scan returns is strictly ascending by ordinal; each frame lies
    between 0 and the start, carries the locator of its ordinal and was
    seen to exist. *)
Lemma findRecentImages_ascending net printer start count gap images :
  findRecentImages net printer start count gap = Some images ->
  StronglySorted Z.lt (minute <$> images)
  /\ Forall (fun f => 0 <= minute f <= start
                      /\ f = frameAt printer (minute f)
                      /\ imageExists net (url f) = true) images.
Proof.
  unfold findRecentImages. intros H.
  destruct (findRecentImagesTraced _ _ _ _ _) as [s|] eqn:Hs; [|done].
  injection H as <-.
  apply findRecentImagesTraced_inv in Hs as (s0 & Hloop & -> & _).
  apply loop_results in Hloop as (new & Hr & Hsorted & Hall).
  simpl in Hr. subst. split.
  - rewrite fmap_reverse. by apply StronglySorted_reverse_gt.
  - apply Forall_reverse. eapply Forall_impl; [exact Hall|]. simpl.
    intros [m u] (? & ? & ?). simpl in *. subst. done.
Qed.

Lemma StronglySorted_lt_NoDup (l : list Z) : StronglySorted Z.lt l -> NoDup l.
Proof.
  induction 1 as [|x l Hl IH Hx]; constructor; [|done].
  intros Hin. rewrite Forall_forall in Hx. specialize (Hx x Hin). lia.
Qed.

(** *** The scan from 95 with frames at 95, 94 and 90 *)

(** C1, as amended: for the scan [discover(printer, 95, maxCount, 3)] with
    [maxCount >= 3], on a network where exactly the frames at 95, 94 and 90
    exist, the probes are 95, 94, 93, 92, 91 in this order (the third miss
    in a row ends the scan, 90 is never probed) and the result is the two
    frames in ascending order, [94, 95]. *)
Theorem C1_scan_stops_at_gap (net : Network) (printer : PrinterId) (maxCount : Z) :
  3 <= maxCount ->
  (forall m, imageExists net (getImageUrl printer m) = true <-> m ∈ [95; 94; 90]) ->
  findRecentImagesTraced net printer 95 maxCount 3
  = Some {| results := [frameAt printer 94; frameAt printer 95];
            probed := [95; 94; 93; 92; 91] |}
  /\ findRecentImages net printer 95 maxCount 3
     = Some [frameAt printer 94; frameAt printer 95].
Proof.
  intros Hcount Hnet.
  assert (Hhit : forall m, m ∈ [95; 94; 90] ->
            imageExists net (getImageUrl printer m) = true)
    by (intros m; apply Hnet).
  assert (Hmiss : forall m, m ∉ [95; 94; 90] ->
            imageExists net (getImageUrl printer m) = false).
  { intros m Hm. apply not_true_is_false. by rewrite Hnet. }
  assert (findRecentImagesTraced net printer 95 maxCount 3
          = Some {| results := [frameAt printer 94; frameAt printer 95];
                    probed := [95; 94; 93; 92; 91] |}) as Ht.
  { unfold findRecentImagesTraced.
    change (scanFuel 95) with (S (S (S (S (S 92%nat))))).
    rewrite loop_hit; [|lia|simpl; lia|apply Hhit; in_list].
    rewrite loop_hit; [|lia|simpl; lia|apply Hhit; in_list].
    rewrite loop_miss; [|lia|simpl; lia|apply Hmiss; in_list|lia].
    rewrite loop_miss; [|lia|simpl; lia|apply Hmiss; in_list|lia].
    rewrite loop_break; [|lia|simpl; lia|apply Hmiss; in_list|lia].
    done. }
  split; [done|]. unfold findRecentImages. by rewrite Ht.
Qed.

Lemma C1_scan_stops_at_gap_witness :
  findRecentImagesTraced (hitsAt h2c [95; 94; 90]) h2c 95 60 3
  = Some {| results := [frameAt h2c 94; frameAt h2c 95];
            probed := [95; 94; 93; 92; 91] |}
  /\ findRecentImages (hitsAt h2c [95; 94; 90]) h2c 95 60 3
     = Some [frameAt h2c 94; frameAt h2c 95].
Proof.
  apply (C1_scan_stops_at_gap (hitsAt h2c [95; 94; 90]) h2c 60).
  - lia.
  - intros m. apply hitsAt_spec.
Defined.

(** C1 as stated leaves [maxCount] free: with [maxCount = 1] the same scan
    stops after its first hit and returns the frame at 95 alone. *)
Lemma C1_counterexample_maxCount_1 :
  (forall m, imageExists (hitsAt h2c [95; 94; 90]) (getImageUrl h2c m) = true
             <-> m ∈ [95; 94; 90])
  /\ findRecentImagesTraced (hitsAt h2c [95; 94; 90]) h2c 95 1 3
     = Some {| results := [frameAt h2c 95]; probed := [95] |}
  /\ findRecentImages (hitsAt h2c [95; 94; 90]) h2c 95 1 3
     <> Some [frameAt h2c 94; frameAt h2c 95].
Proof.
  split; [intros m; apply hitsAt_spec|].
  split; [by vm_compute|]. by vm_compute.
Qed.

(** With [maxCount = 2] the result is the same, but the scan ends on its
    count: 93, 92 and 91 are not probed. *)
Example scan_from_95_maxCount_2 :
  findRecentImagesTraced (hitsAt h2c [95; 94; 90]) h2c 95 2 3
  = Some {| results := [frameAt h2c 94; frameAt h2c 95]; probed := [95; 94] |}.
Proof. by vm_compute. Qed.

(** *** Bounds on the scan *)

(** C2, as amended: for [startOrdinal >= 0], [maxCount >= 1], [maxGap >= 1]
    and every network, the scan returns, with at most [maxCount] frames,
    after at most [maxCount * maxGap] probes (and at most one per ordinal
    from [startOrdinal] down to 0): a hit resets the run of misses, so up to
    [maxGap - 1] misses may come before each hit. *)
Theorem C2_scan_bounds (net : Network) (printer : PrinterId)
    (startOrdinal maxCount maxGap : Z) :
  0 <= startOrdinal -> 1 <= maxCount -> 1 <= maxGap ->
  exists s,
    findRecentImagesTraced net printer startOrdinal maxCount maxGap = Some s
    /\ Z.of_nat (length (results s)) <= maxCount
    /\ Z.of_nat (length (probed s)) <= maxCount * maxGap
    /\ Z.of_nat (length (probed s)) <= startOrdinal + 1
    /\ Forall (fun m => 0 <= m <= startOrdinal) (probed s).
Proof.
  intros Hstart Hcount Hgap.
  destruct (findRecentImagesTraced_total net printer startOrdinal maxCount maxGap)
    as [s Hs].
  exists s. split; [done|].
  apply findRecentImagesTraced_inv in Hs as (s0 & Hloop & -> & ->).
  rewrite length_reverse.
  pose proof (loop_count _ _ _ _ _ _ _ _ _ _ Hloop) as Hlen.
  pose proof (loop_probe_bound _ _ _ _ _ _ _ _ _ _ Hcount Hgap Hloop) as Hpr.
  destruct (loop_probed _ _ _ _ _ _ _ _ _ _ Hloop) as (k & Hk & Hkle).
  simpl in *. rewrite Hk in *. rewrite downFrom_length in *.
  repeat split; try lia.
  eapply Forall_impl; [apply downFrom_bounds|]. simpl. lia.
Qed.

Lemma C2_scan_bounds_witness :
  exists s,
    findRecentImagesTraced (hitsAt h2c [3; 0]) h2c 5 2 3 = Some s
    /\ Z.of_nat (length (results s)) <= 2
    /\ Z.of_nat (length (probed s)) <= 2 * 3
    /\ Z.of_nat (length (probed s)) <= 5 + 1
    /\ Forall (fun m => 0 <= m <= 5) (probed s).
Proof. apply (C2_scan_bounds (hitsAt h2c [3; 0]) h2c 5 2 3); lia. Defined.

(** C2 as stated fails: with [maxCount = 2] and [maxGap = 3], frames at 3
    and 0 and a start at 5, the scan probes the six ordinals 5, 4, 3, 2, 1, 0,
    one more than [maxCount + maxGap]. *)
Lemma C2_counterexample_six_probes :
  0 <= 5 /\ 1 <= 2 /\ 1 <= 3
  /\ findRecentImagesTraced (hitsAt h2c [3; 0]) h2c 5 2 3
     = Some {| results := [frameAt h2c 0; frameAt h2c 3];
               probed := [5; 4; 3; 2; 1; 0] |}
  /\ ~ (Z.of_nat (length [5; 4; 3; 2; 1; 0]) <= 2 + 3).
Proof. repeat split; try lia; by vm_compute. Qed.

(** *** Failing probes *)

(** C6: whatever the probes do, the scan returns (it has no way to throw:
    [imageExists] resolves with [false] on every failure); it returns the
    same frames after the same probes as on the network where each failure
    is a missing image; and failures count as misses: [maxGap] failing
    probes from the start end the scan there, with no frame. *)
Theorem C6_failing_probe_is_a_miss (net : Network) (printer : PrinterId)
    (startOrdinal maxCount maxGap : Z) :
  is_Some (findRecentImagesTraced net printer startOrdinal maxCount maxGap)
  /\ findRecentImagesTraced net printer startOrdinal maxCount maxGap
     = findRecentImagesTraced (asNotFound net) printer startOrdinal maxCount maxGap
  /\ (1 <= maxCount -> 1 <= maxGap -> maxGap - 1 <= startOrdinal ->
      (forall m, startOrdinal - maxGap < m <= startOrdinal ->
                 exists why, net (getImageUrl printer m) = OnError why) ->
      findRecentImagesTraced net printer startOrdinal maxCount maxGap
      = Some {| results := [];
                probed := downFrom startOrdinal (Z.to_nat maxGap) |}).
Proof.
  split; [apply findRecentImagesTraced_total|]. split.
  - unfold findRecentImagesTraced.
    by rewrite (loop_ext net printer maxCount maxGap (asNotFound net))
      by apply imageExists_asNotFound.
  - intros Hcount Hgap Hstart Hfail. unfold findRecentImagesTraced.
    replace (Z.to_nat maxGap) with (S (Z.to_nat (maxGap - 1))) by lia.
    rewrite (loop_gap net printer maxCount maxGap (Z.to_nat (maxGap - 1)));
      [done|lia|lia|lia|simpl; lia| |unfold scanFuel; lia].
    intros m Hm. unfold imageExists.
    destruct (Hfail m) as [why ->]; [lia|done].
Qed.

Lemma C6_failing_probe_is_a_miss_witness :
  is_Some (findRecentImagesTraced offline h2d 5 60 3)
  /\ findRecentImagesTraced offline h2d 5 60 3
     = findRecentImagesTraced (asNotFound offline) h2d 5 60 3
  /\ findRecentImagesTraced offline h2d 5 60 3
     = Some {| results := []; probed := downFrom 5 (Z.to_nat 3) |}.
Proof.
  destruct (C6_failing_probe_is_a_miss offline h2d 5 60 3) as (H1 & H2 & H3).
  split; [exact H1|]. split; [exact H2|].
  apply H3; [lia|lia|lia|].
  intros m _. exists NetworkFailure. reflexivity.
Defined.

(** *** A start below 0 *)

(** C10: from a start ordinal below 0 the scan probes nothing and returns
    the empty sequence. *)
Theorem C10_negative_start (net : Network) (printer : PrinterId)
    (startOrdinal maxCount maxGap : Z) :
  startOrdinal < 0 ->
  findRecentImagesTraced net printer startOrdinal maxCount maxGap
  = Some {| results := []; probed := [] |}
  /\ findRecentImages net printer startOrdinal maxCount maxGap = Some [].
Proof.
  intros Hneg.
  assert (findRecentImagesTraced net printer startOrdinal maxCount maxGap
          = Some {| results := []; probed := [] |}) as Ht.
  { unfold findRecentImagesTraced, scanFuel. rewrite loop_exit; [done|lia]. }
  split; [done|]. unfold findRecentImages. by rewrite Ht.
Qed.

Lemma C10_negative_start_witness :
  findRecentImagesTraced (hitsAt h2c [0; 1]) h2c (-1) 60 10
  = Some {| results := []; probed := [] |}
  /\ findRecentImages (hitsAt h2c [0; 1]) h2c (-1) 60 10 = Some [].
Proof. apply (C10_negative_start (hitsAt h2c [0; 1]) h2c (-1) 60 10). lia. Defined.

End ScanProofs.

(** ** Sorting with a comparator that subtracts keys *)

Module SortProofs.
Import JsArray.

Section Generic.
Context {A : Type} (cmp : A -> A -> Z).

Lemma insertSorted_Permutation x l : insertSorted cmp x l ≡ₚ x :: l.
Proof.
  induction l as [|y ys IH]; simpl; [done|].
  destruct (cmp x y <=? 0); [done|].
  rewrite IH. apply Permutation_swap.
Qed.

Lemma sort_Permutation l : sort cmp l ≡ₚ l.
Proof.
  induction l as [|x xs IH]; simpl; [done|].
  by rewrite insertSorted_Permutation, IH.
Qed.

Lemma sort_length l : length (sort cmp l) = length l.
Proof. by rewrite sort_Permutation. Qed.
End Generic.

Section ByKey.
Context {A : Type} (key : A -> Z).

Local Abbreviation cmp := (fun a b : A => key a - key b).
Local Abbreviation le := (fun a b : A => key a <= key b).

Lemma insertSorted_sorted x l :
  StronglySorted le l -> StronglySorted le (insertSorted cmp x l).
Proof.
  induction 1 as [|y ys Hys IH Hy]; simpl; [repeat constructor|].
  destruct (Z.leb_spec (key x - key y) 0) as [Hle|Hgt].
  - constructor; [by constructor|].
    constructor; [lia|]. eapply Forall_impl; [exact Hy|]. simpl. lia.
  - constructor; [done|].
    rewrite insertSorted_Permutation. constructor; [lia|done].
Qed.

Lemma sort_sorted l : StronglySorted le (sort cmp l).
Proof.
  induction l as [|x xs IH]; simpl; [constructor|by apply insertSorted_sorted].
Qed.

(** An array already in order is left as it is. *)
Lemma sort_of_sorted l : StronglySorted le l -> sort cmp l = l.
Proof.
  induction 1 as [|x xs Hxs IH Hx]; simpl; [done|].
  rewrite IH. destruct xs as [|y ys]; simpl; [done|].
  apply Forall_cons in Hx as [Hxy _].
  destruct (Z.leb_spec (key x - key y) 0); [done|lia].
Qed.

(** With pairwise distinct keys the outcome is strictly ascending. *)
Lemma sort_strict l :
  NoDup (key <$> l) -> StronglySorted Z.lt (key <$> sort cmp l).
Proof.
  intros Hnd.
  assert (NoDup (key <$> sort cmp l)) as Hnd'
    by (by rewrite sort_Permutation).
  pose proof (sort_sorted l) as Hs.
  induction Hs as [|x xs Hxs IH Hx]; simpl in *; [constructor|].
  apply NoDup_cons in Hnd' as [Hx' Hnd'].
  constructor; [by apply IH|].
  rewrite Forall_fmap. rewrite Forall_forall in Hx. apply Forall_forall.
  intros y Hy. specialize (Hx y Hy). simpl in *.
  assert (key x <> key y); [|lia].
  intros Heq. apply Hx'. rewrite Heq. by apply list_elem_of_fmap_2.
Qed.
End ByKey.

End SortProofs.

(** ** The frame store *)

Module StoreProofs.
Import ImageService FrameStore.

Lemma StrictlyAscending_NoDup l : StrictlyAscending l -> NoDup (minute <$> l).
Proof. apply ScanProofs.StronglySorted_lt_NoDup. Qed.

Lemma StrictlyAscending_weaken l :
  StrictlyAscending l -> StronglySorted (fun a b => minute a <= minute b) l.
Proof.
  unfold StrictlyAscending. induction l as [|x xs IH]; simpl; [constructor|].
  intros [Hxs Hx]%StronglySorted_inv. constructor; [by apply IH|].
  rewrite Forall_fmap in Hx. eapply Forall_impl; [exact Hx|]. simpl. lia.
Qed.

Lemma elem_of_minutesOf m prev : m ∈ minutesOf prev <-> m ∈ minute <$> prev.
Proof. unfold minutesOf. by rewrite elem_of_list_to_set. Qed.

Lemma elem_of_notIn f existing images :
  f ∈ notIn existing images <-> (minute f ∉ existing) /\ (f ∈ images).
Proof. unfold notIn. by rewrite list_elem_of_filter. Qed.

Lemma notIn_empty images : notIn ∅ images = images.
Proof.
  unfold notIn. induction images as [|f fs IH]; [done|].
  rewrite filter_cons_True by set_solver. by rewrite IH.
Qed.

(** The frames added by a merge have ordinals the store does not hold, and
    no ordinal twice. *)
Lemma merged_minutes_NoDup prev images :
  NoDup (minute <$> prev) -> NoDup (minute <$> images) ->
  NoDup (minute <$> (prev ++ notIn (minutesOf prev) images)).
Proof.
  intros Hp Hi. rewrite fmap_app. apply NoDup_app. split; [done|]. split.
  - intros m Hm (f & -> & Hf)%list_elem_of_fmap.
    apply elem_of_notIn in Hf as [Hf _]. by apply Hf, elem_of_minutesOf.
  - unfold notIn. revert Hi. clear. induction images as [|f fs IH]; [done|].
    rewrite fmap_cons. intros [Hf Hfs]%NoDup_cons.
    destruct (decide (minute f ∉ minutesOf prev)).
    + rewrite filter_cons_True by done. rewrite fmap_cons. apply NoDup_cons.
      split; [|by apply IH].
      intros (g & Hg & Hin)%list_elem_of_fmap. apply Hf. rewrite Hg.
      apply list_elem_of_fmap_2. by apply list_elem_of_filter in Hin as [_ ?].
    + rewrite filter_cons_False by done. by apply IH.
Qed.

(** The updater keeps the store strictly ascending. *)
Lemma setFrames_ascending isInitial images prev :
  StrictlyAscending prev -> StrictlyAscending images ->
  StrictlyAscending (setFrames isInitial images prev).
Proof.
  intros Hp Hi. unfold setFrames, mergeFrames.
  destruct (negb isInitial && bool_decide (0 < length prev)%nat); [|done].
  simpl. case_bool_decide; [done|]. simpl.
  apply (SortProofs.sort_strict minute).
  apply merged_minutes_NoDup; by apply StrictlyAscending_NoDup.
Qed.

Lemma IsDiscovery_ascending printer images :
  IsDiscovery printer images -> StrictlyAscending images.
Proof.
  intros (net & now & H). by apply ScanProofs.findRecentImages_ascending in H as [? _].
Qed.

Lemma afterCycles_ascending printer store cycles :
  StrictlyAscending store ->
  Forall (fun c : Cycle => IsDiscovery printer c.2) cycles ->
  StrictlyAscending (afterCycles store cycles).
Proof.
  intros Hs Hc. revert store Hs.
  induction Hc as [|[isInitial images] cycles Hd _ IH]; intros store Hs; [done|].
  simpl. apply IH. apply setFrames_ascending; [done|].
  by apply (IsDiscovery_ascending printer).
Qed.

(** C3: what a scan returns is strictly ascending by ordinal and has no
    ordinal twice; and so is the frame store after any number of load
    cycles (refreshes that merge, or loads that replace) on a store that
    began as a scan's result. *)
Theorem C3_sequences_strictly_ascending :
  (forall net printer startOrdinal maxCount maxGap images,
      findRecentImages net printer startOrdinal maxCount maxGap = Some images ->
      StrictlyAscending images /\ NoDup (minute <$> images))
  /\ (forall printer initial (cycles : list Cycle),
         IsDiscovery printer initial ->
         Forall (fun c : Cycle => IsDiscovery printer c.2) cycles ->
         StrictlyAscending (afterCycles initial cycles)
         /\ NoDup (minute <$> afterCycles initial cycles)).
Proof.
  split.
  - intros net printer start count gap images H.
    apply ScanProofs.findRecentImages_ascending in H as [H _].
    split; [done|by apply StrictlyAscending_NoDup].
  - intros printer initial cycles Hi Hc.
    assert (StrictlyAscending (afterCycles initial cycles)) as H.
    { apply (afterCycles_ascending printer); [|done].
      by apply (IsDiscovery_ascending printer). }
    split; [done|by apply StrictlyAscending_NoDup].
Qed.

Lemma C3_sequences_strictly_ascending_witness :
  (StrictlyAscending [frameAt h2c 10; frameAt h2c 12]
   /\ NoDup (minute <$> [frameAt h2c 10; frameAt h2c 12]))
  /\ (StrictlyAscending
        (afterCycles [frameAt h2c 10; frameAt h2c 12]
           [(false, [frameAt h2c 11; frameAt h2c 12; frameAt h2c 13]);
            (false, [frameAt h2c 12; frameAt h2c 13])])
      /\ NoDup (minute <$>
        (afterCycles [frameAt h2c 10; frameAt h2c 12]
           [(false, [frameAt h2c 11; frameAt h2c 12; frameAt h2c 13]);
            (false, [frameAt h2c 12; frameAt h2c 13])]))).
Proof.
  destruct C3_sequences_strictly_ascending as [Hscan Hstore].
  split.
  - apply (Hscan (hitsAt h2c [10; 12]) h2c 12 60 10). by vm_compute.
  - apply (Hstore h2c).
    + exists (hitsAt h2c [10; 12]), 12. by vm_compute.
    + repeat constructor.
      * exists (hitsAt h2c [11; 12; 13]), 13. by vm_compute.
      * exists (hitsAt h2c [12; 13]), 13. by vm_compute.
Defined.

(** The example of the design document: a refresh that brings 11, 12 and 13
    to a store holding 10 and 12. *)
Example merge_10_12_with_11_12_13 :
  setFrames false [frameAt h2c 11; frameAt h2c 12; frameAt h2c 13]
                  [frameAt h2c 10; frameAt h2c 12]
  = [frameAt h2c 10; frameAt h2c 11; frameAt h2c 12; frameAt h2c 13].
Proof. by vm_compute. Qed.

Lemma notIn_nil_iff images prev :
  notIn (minutesOf prev) images = [] <-> allPresent images prev.
Proof.
  unfold allPresent. split.
  - intros Hnil f Hf. destruct (decide (minute f ∈ minutesOf prev)) as [Hin|Hout].
    + by apply elem_of_minutesOf.
    + assert (f ∈ notIn (minutesOf prev) images) as Hf'
        by (by apply elem_of_notIn).
      rewrite Hnil in Hf'. by apply elem_of_nil in Hf'.
  - intros Hall. destruct (notIn (minutesOf prev) images) as [|f fs] eqn:Hn; [done|].
    assert (f ∈ notIn (minutesOf prev) images) as Hf by (rewrite Hn; left).
    apply elem_of_notIn in Hf as [Hout Hf]. destruct Hout.
    by apply elem_of_minutesOf, Hall.
Qed.

(** C5, as amended: on a refresh, a discovery result whose ordinals are all
    in a non-empty store makes the updater return the very store (no update
    is signalled); a result with an ordinal the store lacks makes the store
    the ascending sort of the old sequence followed by exactly the frames
    with new ordinals; and an empty store is replaced by the result, a new
    value even when the result is empty as well. *)
Theorem C5_refresh_merge (printer : PrinterId) (images prev : list Frame) :
  IsDiscovery printer images ->
  (prev <> [] -> allPresent images prev ->
     mergeFrames false images prev = SameValue
     /\ signalsUpdate (mergeFrames false images prev) = false
     /\ setFrames false images prev = prev)
  /\ (~ allPresent images prev ->
        mergeFrames false images prev
        = NewValue (JsArray.sort byMinute (prev ++ notIn (minutesOf prev) images)))
  /\ (prev = [] -> mergeFrames false images prev = NewValue images).
Proof.
  intros Hd. unfold setFrames, mergeFrames. simpl. split; [|split].
  - intros Hne Hall%notIn_nil_iff. destruct prev as [|p prev]; [done|].
    rewrite (bool_decide_eq_true_2 (0 < _)%nat) by (simpl; lia).
    rewrite Hall. done.
  - intros Hnew. destruct prev as [|p prev].
    + simpl. change (minutesOf []) with (∅ : gset Z). rewrite notIn_empty.
      rewrite (SortProofs.sort_of_sorted minute); [done|].
      by apply StrictlyAscending_weaken, (IsDiscovery_ascending printer).
    + rewrite (bool_decide_eq_true_2 (0 < _)%nat) by (simpl; lia).
      rewrite bool_decide_eq_false_2; [done|].
      intros Hlen. apply Hnew, notIn_nil_iff. by apply nil_length_inv.
  - by intros ->.
Qed.

Lemma C5_refresh_merge_witness :
  (mergeFrames false [frameAt h2c 10; frameAt h2c 12]
                     [frameAt h2c 10; frameAt h2c 12] = SameValue
   /\ signalsUpdate (mergeFrames false [frameAt h2c 10; frameAt h2c 12]
                                 [frameAt h2c 10; frameAt h2c 12]) = false
   /\ setFrames false [frameAt h2c 10; frameAt h2c 12]
                      [frameAt h2c 10; frameAt h2c 12]
      = [frameAt h2c 10; frameAt h2c 12])
  /\ mergeFrames false [frameAt h2c 11; frameAt h2c 12; frameAt h2c 13]
                       [frameAt h2c 10; frameAt h2c 12]
     = NewValue (JsArray.sort byMinute
                   ([frameAt h2c 10; frameAt h2c 12]
                    ++ notIn (minutesOf [frameAt h2c 10; frameAt h2c 12])
                         [frameAt h2c 11; frameAt h2c 12; frameAt h2c 13]))
  /\ mergeFrames false [frameAt h2c 10; frameAt h2c 12] []
     = NewValue [frameAt h2c 10; frameAt h2c 12].
Proof.
  assert (IsDiscovery h2c [frameAt h2c 10; frameAt h2c 12]) as Hd1
    by (exists (hitsAt h2c [10; 12]), 12; by vm_compute).
  assert (IsDiscovery h2c [frameAt h2c 11; frameAt h2c 12; frameAt h2c 13]) as Hd2
    by (exists (hitsAt h2c [11; 12; 13]), 13; by vm_compute).
  split; [|split].
  - apply (C5_refresh_merge h2c _ _ Hd1); [done|].
    intros f Hf. simpl.
    rewrite !elem_of_cons, elem_of_nil in Hf.
    rewrite !elem_of_cons, elem_of_nil.
    destruct Hf as [->|[->|[]]]; simpl; tauto.
  - apply (C5_refresh_merge h2c _ _ Hd2).
    intros Hall. specialize (Hall (frameAt h2c 11) ltac:(left)). simpl in Hall.
    rewrite !elem_of_cons, elem_of_nil in Hall. lia.
  - by apply (C5_refresh_merge h2c _ _ Hd1).
Defined.

(** C5 as stated fails on an empty store: an empty discovery result has
    all its ordinals in the store, yet the updater returns the result, an
    array of its own, and the update is signalled. *)
Lemma C5_counterexample_empty_store :
  findRecentImages offline h2c 5 60 10 = Some []
  /\ allPresent [] []
  /\ mergeFrames false [] [] = NewValue []
  /\ mergeFrames false [] [] <> SameValue
  /\ signalsUpdate (mergeFrames false [] []) = true.
Proof.
  split; [by vm_compute|]. split; [by intros f Hf%elem_of_nil|].
  by vm_compute.
Qed.

End StoreProofs.


(** ** The live-loop view *)

Module LiveViewProofs.
Import ImageService FrameStore LiveView.

Lemma sliceLast_length {A : Type} (n : nat) (l : list A) :
  length (JsArray.sliceLast n l) = Nat.min n (length l).
Proof. unfold JsArray.sliceLast. rewrite length_drop. lia. Qed.

(** The loop window holds the last [LOOP_COUNT] frames, or all of them. *)
Lemma loopFrames_length s :
  Z.of_nat (length (loopFrames s))
  = Z.min (Z.of_nat LOOP_COUNT) (Z.of_nat (length (frames s))).
Proof. unfold loopFrames. rewrite sliceLast_length. lia. Qed.

Lemma loopTimer_Some s len :
  loopTimer s = Some len -> len = Z.of_nat (length (loopFrames s)) /\ 1 < len.
Proof.
  unfold loopTimer. destruct (negb (live s)); simpl; [done|].
  case_bool_decide; [done|]. intros [= <-]. split; [done|lia].
Qed.

(** Every event leaves the loop position alone, except the loop timer. *)
Lemma step_loopIndex s e s' :
  step s e = Some s' ->
  loopIndex s' = loopIndex s
  \/ (exists len, e = LoopTick /\ loopTimer s = Some len
                  /\ loopIndex s' = Z.rem (loopIndex s + 1) len).
Proof.
  destruct e; simpl; intros H.
  - destruct (refreshTimer s); [|done]. injection H as <-. by left.
  - destruct (loopTimer s) as [len|] eqn:Ht; [|done]. injection H as <-.
    right. by exists len.
  - destruct (inFlight s !! call); [|done]. injection H as <-. by left.
  - destruct (render s); try done. injection H as <-. by left.
  - destruct (render s); try done. injection H as <-. by left.
Qed.

(** The loop position never goes below 0. *)
Lemma reachable_loopIndex printer s : reachable printer s -> 0 <= loopIndex s.
Proof.
  induction 1 as [|s e s' _ IH _ Hstep]; [done|].
  apply step_loopIndex in Hstep as [->|(len & _ & Ht & ->)]; [done|].
  apply loopTimer_Some in Ht as [_ Hlen]. apply Z.rem_nonneg; lia.
Qed.

(** What the render shows for a loop position at or above 0. *)
Lemma safeIndex_in_window s :
  0 <= loopIndex s -> frames s <> [] ->
  0 <= safeIndex s <= Z.min (Z.of_nat LOOP_COUNT) (Z.of_nat (length (frames s))) - 1
  /\ safeIndex s
     = loopIndex s `mod` Z.min (Z.of_nat LOOP_COUNT) (Z.of_nat (length (frames s)))
  /\ currentFrame s = loopFrames s !! Z.to_nat (safeIndex s)
  /\ is_Some (currentFrame s).
Proof.
  intros Hidx Hne.
  assert (0 < Z.of_nat (length (loopFrames s))) as Hpos.
  { rewrite loopFrames_length. destruct (frames s); [done|].
    unfold LOOP_COUNT. simpl. lia. }
  assert (safeIndex s = loopIndex s `mod` Z.of_nat (length (loopFrames s))) as Hsafe.
  { unfold safeIndex. rewrite bool_decide_eq_true_2 by lia.
    apply Z.rem_mod_nonneg; lia. }
  pose proof (Z.mod_pos_bound (loopIndex s) _ Hpos) as Hbound.
  rewrite <- Hsafe in Hbound. rewrite <- loopFrames_length.
  assert (currentFrame s = loopFrames s !! Z.to_nat (safeIndex s)) as Hcur.
  { unfold currentFrame. rewrite bool_decide_eq_false_2; [done|lia]. }
  repeat split; try lia; try done.
  rewrite Hcur. apply lookup_lt_is_Some. lia.
Qed.

Lemma render_live s shown total :
  render s = ShowLive shown total ->
  live s = true /\ loading s = false /\ frames s <> []
  /\ shown = currentFrame s /\ total = length (frames s).
Proof.
  unfold render. destruct (loading s); [done|].
  case_bool_decide as Hlen; [done|]. destruct (live s); simpl; [|done].
  intros [= <- <-]. repeat split; try done. by intros Hnil; rewrite Hnil in Hlen.
Qed.

(** C7: in every state the live-loop view can reach, when the live branch
    is rendered the index of the frame shown lies in
    [0, min(LOOP_COUNT, frames.length) - 1], with [LOOP_COUNT = 10]; it is
    the loop position modulo the length of the loop window, and the frame at
    this index of the window is the one shown. This holds in particular
    right after a pending load resolved and changed the store, where the
    loop position is the one from before the merge, taken modulo the new
    window length. *)
Theorem C7_live_loop_index_in_window (printer : PrinterId) (s : State) :
  reachable printer s ->
  (forall shown total, render s = ShowLive shown total ->
     0 <= safeIndex s
       <= Z.min (Z.of_nat LOOP_COUNT) (Z.of_nat (length (frames s))) - 1
     /\ safeIndex s
        = loopIndex s `mod` Z.min (Z.of_nat LOOP_COUNT) (Z.of_nat (length (frames s)))
     /\ shown = loopFrames s !! Z.to_nat (safeIndex s)
     /\ is_Some shown)
  /\ (forall call images s' shown total,
        IsDiscovery printer images ->
        step s (Resolved call images) = Some s' ->
        render s' = ShowLive shown total ->
        0 <= safeIndex s'
          <= Z.min (Z.of_nat LOOP_COUNT) (Z.of_nat (length (frames s'))) - 1
        /\ safeIndex s'
           = loopIndex s `mod` Z.min (Z.of_nat LOOP_COUNT) (Z.of_nat (length (frames s')))).
Proof.
  intros Hreach. split.
  - intros shown total (_ & _ & Hne & -> & _)%render_live.
    destruct (safeIndex_in_window s) as (? & ? & ? & ?);
      [by apply (reachable_loopIndex printer)|done|done].
  - intros call images s' shown total Hd Hstep (_ & _ & Hne & _)%render_live.
    assert (loopIndex s' = loopIndex s) as Hsame.
    { apply step_loopIndex in Hstep as [?|(? & ? & _)]; done. }
    destruct (safeIndex_in_window s') as (? & Hmod & _); [|done|].
    + rewrite Hsame. by apply (reachable_loopIndex printer).
    + by rewrite <- Hsame.
Qed.

(** Without frames the index is 0 and the live branch is not rendered:
    there is no frame to show. *)
Lemma nothing_shown_without_frames s :
  frames s = [] ->
  safeIndex s = 0 /\ currentFrame s = None
  /\ (forall shown total, render s <> ShowLive shown total).
Proof.
  intros Hnil. unfold render, currentFrame, safeIndex, loopFrames. rewrite Hnil.
  simpl. repeat split. intros shown total. by destruct (loading s).
Qed.


(** Pausing does not hold back a load that is on its way: the store takes
    its result as at any other time. *)
Lemma live_resolved_writes_store s call isInitial images :
  inFlight s !! call = Some isInitial ->
  exists s', step s (Resolved call images) = Some s'
             /\ frames s' = setFrames isInitial images (frames s)
             /\ live s' = live s.
Proof. intros H. simpl. rewrite H. eauto. Qed.

Lemma run_reachable printer es : forall s s',
  reachable printer s -> Forall (admissible printer) es ->
  run s es = Some s' -> reachable printer s'.
Proof.
  induction es as [|e es IH]; intros s s' Hs Hadm Hrun; simpl in Hrun.
  - by injection Hrun as <-.
  - apply Forall_cons in Hadm as [He Hes].
    destruct (step s e) as [s1|] eqn:Hstep; [|done].
    apply (IH s1); [|done|done]. by apply (reach_step printer s e).
Qed.

Lemma exampleState_reachable : reachable h2c exampleState.
Proof.
  apply (run_reachable h2c exampleEvents mount); [constructor| |by vm_compute].
  repeat constructor.
  exists (hitsAt h2c [10; 11; 12]), 12. by vm_compute.
Qed.

Lemma C7_live_loop_index_in_window_witness :
  (0 <= safeIndex exampleState
     <= Z.min (Z.of_nat LOOP_COUNT) (Z.of_nat (length (frames exampleState))) - 1
   /\ safeIndex exampleState
      = loopIndex exampleState
        `mod` Z.min (Z.of_nat LOOP_COUNT) (Z.of_nat (length (frames exampleState)))
   /\ Some (frameAt h2c 12) = loopFrames exampleState !! Z.to_nat (safeIndex exampleState)
   /\ is_Some (Some (frameAt h2c 12)))
  /\ (0 <= safeIndex exampleMerged
        <= Z.min (Z.of_nat LOOP_COUNT) (Z.of_nat (length (frames exampleMerged))) - 1
      /\ safeIndex exampleMerged
         = loopIndex exampleState
           `mod` Z.min (Z.of_nat LOOP_COUNT) (Z.of_nat (length (frames exampleMerged)))).
Proof.
  destruct (C7_live_loop_index_in_window h2c exampleState exampleState_reachable)
    as [Hshown Hmerge].
  split.
  - apply (Hshown (Some (frameAt h2c 12)) 3%nat). reflexivity.
  - apply (Hmerge 0%nat [frameAt h2c 12; frameAt h2c 13] exampleMerged
                  (Some (frameAt h2c 12)) 4%nat).
    + exists (hitsAt h2c [12; 13]), 13. by vm_compute.
    + by vm_compute.
    + by vm_compute.
Defined.

End LiveViewProofs.


(** ** The start/stop view and the listing hook: loads that end late *)

Module HybridViewProofs.
Import ImageService FrameStore HybridView.

(** A pending load writes the store when it resolves, whether the view is
    live or stopped: [loadImages] tests nothing before [setFrames]. *)
Lemma hybrid_resolved_writes_store s call isInitial images :
  inFlight s !! call = Some isInitial ->
  exists s', step s (Resolved call images) = Some s'
             /\ frames s' = setFrames isInitial images (frames s)
             /\ live s' = live s /\ playing s' = playing s.
Proof. intros H. simpl. rewrite H. eauto. Qed.

(** While the view is stopped neither of its timers is installed, and a
    load that resolves installs none. *)
Lemma stopped_no_timers s :
  stopped s ->
  refreshTimer s = false /\ playTimer s = None
  /\ step s RefreshTick = None /\ step s PlayTick = None.
Proof.
  intros [Hlive Hplay]. unfold refreshTimer, playTimer. simpl.
  unfold refreshTimer, playTimer. by rewrite Hlive, Hplay.
Qed.

Lemma resolved_keeps_stopped s call images s' :
  stopped s -> step s (Resolved call images) = Some s' -> stopped s'.
Proof.
  intros [Hlive Hplay]. simpl. destruct (inFlight s !! call); [|done].
  intros [= <-]. by split.
Qed.


Lemma lateRefresh_discovery : IsDiscovery h2c lateRefresh.
Proof. exists (hitsAt h2c [11; 12; 13]), 13. by vm_compute. Qed.

(** C4, on the start/stop view: the user stops the feed while the scan of a
    refresh is on its way; the view is stopped, both timers are off, the
    store holds the frames at 10 and 12. When that scan returns the frames
    at 11, 12 and 13, no timer comes back, but the store is written: it now
    holds 10, 11, 12, 13. The claim asks for an unchanged store. *)
Theorem C4_load_resolved_after_stop_writes_store :
  exists sStop sLate,
    run mount stopDuringRefresh = Some sStop
    /\ stopped sStop
    /\ inFlight sStop = [false]
    /\ frames sStop = firstLoad
    /\ IsDiscovery h2c lateRefresh
    /\ step sStop (Resolved 0 lateRefresh) = Some sLate
    /\ frames sLate
       = [frameAt h2c 10; frameAt h2c 11; frameAt h2c 12; frameAt h2c 13]
    /\ frames sLate <> frames sStop
    /\ refreshTimer sLate = false /\ playTimer sLate = None
    /\ step sLate RefreshTick = None /\ step sLate PlayTick = None.
Proof.
  eexists _, _. split; [by vm_compute|]. split; [by split|].
  split; [done|]. split; [done|]. split; [apply lateRefresh_discovery|].
  split; [by vm_compute|]. by vm_compute.
Qed.

End HybridViewProofs.

Module HookProofs.
Import OneDrive.

(** The hook does test its flag: a fetch that settles after the unmount
    changes nothing, whatever it brings. *)
Lemma settled_after_unmount localeCompare s r :
  step localeCompare (step localeCompare s Unmount) (Settled r)
  = step localeCompare s Unmount.
Proof. simpl. by destruct (fetchImages r). Qed.

End HookProofs.

(** ** Discovery from a folder listing *)

Module ListingProofs.
Import OneDrive.

(** *** The name pattern *)

Lemma list_of_string_app (s t : string) :
  String.list_ascii_of_string (s +:+ t)
  = String.list_ascii_of_string s ++ String.list_ascii_of_string t.
Proof. induction s as [|a s IH]; simpl; [done|by rewrite IH]. Qed.

Lemma string_of_list_app (l k : list ascii) :
  String.string_of_list_ascii (l ++ k)
  = String.string_of_list_ascii l +:+ String.string_of_list_ascii k.
Proof. induction l as [|a l IH]; simpl; [done|by rewrite IH]. Qed.

Lemma span_inv {A : Type} (p : A -> bool) (l a b : list A) :
  span p l = (a, b) ->
  l = a ++ b /\ forallb p a = true.
Proof.
  revert a b. induction l as [|x xs IH]; intros a b; simpl.
  - by intros [= <- <-].
  - destruct (p x) eqn:Hx.
    + destruct (span p xs) as [a' b']. intros [= <- <-].
      destruct (IH a' b' eq_refl) as [-> Hall]. simpl. by rewrite Hx, Hall.
    + by intros [= <- <-].
Qed.

Lemma span_app {A : Type} (p : A -> bool) (a : list A) (x : A) (b : list A) :
  forallb p a = true -> p x = false -> span p (a ++ x :: b) = (a, x :: b).
Proof.
  intros Ha Hx. induction a as [|y a IH]; simpl in *.
  - by rewrite Hx.
  - apply andb_true_iff in Ha as [-> Ha]. by rewrite (IH Ha).
Qed.

Lemma forallb_reverse {A : Type} (p : A -> bool) (l : list A) :
  forallb p (reverse l) = forallb p l.
Proof.
  induction l as [|x l IH]; [done|].
  rewrite reverse_cons, forallb_app. simpl. rewrite IH.
  destruct (p x), (forallb p l); done.
Qed.

Lemma string_of_list_nil_inv (l : list ascii) :
  String.string_of_list_ascii l = "" -> l = [].
Proof. by destruct l. Qed.

(** [matchName] finds the groups of a name exactly when the name is made
    the way the pattern asks, with these groups. *)
Lemma matchName_spec s prefix digits :
  matchName s = Some (prefix, digits) <-> matchesPattern s prefix digits.
Proof.
  split.
  - unfold matchName.
    destruct (reverse (String.list_ascii_of_string s))
      as [|g [|p [|j [|dot rest]]]] eqn:Hrev; try done.
    destruct (eqIgnoreCase "g" "G" g) eqn:Hg; [|done].
    destruct (eqIgnoreCase "p" "P" p) eqn:Hp; [|done].
    destruct (eqIgnoreCase "j" "J" j) eqn:Hj; [|done].
    case_bool_decide as Hdot; [|done]. subst dot. simpl.
    destruct (span isDigit rest) as [ds [|dash pre]] eqn:Hspan; [done|].
    case_bool_decide as Hdash; [|done]. subst dash.
    case_bool_decide as Hds; [|done]. case_bool_decide as Hpre; [|done]. simpl.
    destruct (forallb _ pre) eqn:Hlt; [|done].
    intros [= <- <-].
    apply span_inv in Hspan as [-> Hdigits].
    apply (f_equal reverse) in Hrev. rewrite reverse_involutive in Hrev.
    exists j, p, g. repeat split; try done.
    + rewrite <- (String.string_of_list_ascii_of_string s), Hrev.
      rewrite !reverse_cons, reverse_app, reverse_cons, <- !app_assoc.
      by rewrite !string_of_list_app.
    + intros Hnil%string_of_list_nil_inv. apply Hpre.
      apply (f_equal reverse) in Hnil. by rewrite reverse_involutive in Hnil.
    + by rewrite String.list_ascii_of_string_of_list_ascii, forallb_reverse.
    + intros Hnil%string_of_list_nil_inv. apply Hds.
      apply (f_equal reverse) in Hnil. by rewrite reverse_involutive in Hnil.
    + by rewrite String.list_ascii_of_string_of_list_ascii, forallb_reverse.
  - intros (j & p & g & -> & Hj & Hp & Hg & Hpre & Hlt & Hds & Hdigits).
    unfold matchName.
    assert (reverse (String.list_ascii_of_string
              (prefix +:+ "-" +:+ digits +:+ "." +:+ String j (String p (String g ""))))
            = g :: p :: j :: "."%char
                :: reverse (String.list_ascii_of_string digits)
                ++ "-"%char :: reverse (String.list_ascii_of_string prefix)) as ->.
    { rewrite !list_of_string_app. simpl.
      rewrite reverse_app, reverse_cons, reverse_app. simpl.
      by rewrite <- !app_assoc. }
    rewrite Hg, Hp, Hj. simpl.
    rewrite span_app; [|by rewrite forallb_reverse|done].
    rewrite !bool_decide_eq_true_2; simpl.
    + rewrite forallb_reverse, Hlt, !reverse_involutive.
      by rewrite !String.string_of_list_ascii_of_string.
    + intros Hnil. apply Hpre.
      apply (f_equal reverse) in Hnil. rewrite reverse_involutive in Hnil.
      simpl in Hnil. rewrite <- (String.string_of_list_ascii_of_string prefix).
      by rewrite Hnil.
    + intros Hnil. apply Hds.
      apply (f_equal reverse) in Hnil. rewrite reverse_involutive in Hnil.
      simpl in Hnil. rewrite <- (String.string_of_list_ascii_of_string digits).
      by rewrite Hnil.
    + done.
Qed.

Lemma matchName_spec_witness : matchesPattern "h2c-3.jpg" "h2c" "3".
Proof. apply (proj1 (matchName_spec "h2c-3.jpg" "h2c" "3")). by vm_compute. Defined.

Example matchName_examples :
  matchName "h2c-3.jpg" = Some ("h2c", "3")
  /\ matchName "bed-cam-0042.JPG" = Some ("bed-cam", "0042")
  /\ matchName "h2c-3.jpeg" = None
  /\ matchName "-3.jpg" = None
  /\ matchName "h2c-.jpg" = None
  /\ matchName "h2c_3.jpg" = None.
Proof. by vm_compute. Qed.

(** The three ways the loop body can go. *)

Lemma groupStep_no_match printerMap c :
  matchName (child_name c) = None -> groupStep printerMap c = printerMap.
Proof. unfold groupStep. by intros ->. Qed.

Lemma groupStep_no_url printerMap c :
  downloadUrlOf c = "" -> groupStep printerMap c = printerMap.
Proof.
  unfold groupStep. intros ->. by destruct (matchName _) as [[? ?]|].
Qed.

Lemma groupStep_push printerMap c printerName digits :
  matchName (child_name c) = Some (printerName, digits) ->
  downloadUrlOf c <> "" ->
  groupStep printerMap c
  = mapPush printerName {| num := parseInt digits; url := downloadUrlOf c |}
      (if mapHas printerName printerMap then printerMap
       else mapSet printerName [] printerMap).
Proof.
  unfold groupStep. intros -> Hurl. by rewrite bool_decide_eq_false_2.
Qed.

(** An entry that carries neither download field has no URL. *)
Lemma downloadUrlOf_absent c :
  content_downloadUrl c = None -> microsoft_graph_downloadUrl c = None ->
  downloadUrlOf c = "".
Proof. unfold downloadUrlOf. by intros -> ->. Qed.

Lemma groupChildren_app before after :
  groupChildren (before ++ after) = foldl groupStep (groupChildren before) after.
Proof. unfold groupChildren. apply foldl_app. Qed.

(** C8: for a listing with the entries named h2c-3.jpg, h2c-1.jpg and
    h2d-2.jpg, in this order and each with a download URL, the group of h2c
    holds the frames numbered 1 and 3 in this order, the group of h2d the
    frame numbered 2, and the result lists h2c before h2d (for any
    collation that puts the name h2c before h2d). *)
Theorem C8_listing_groups (localeCompare : string -> string -> Z)
    (c3 c1 c2 : OneDriveChild) :
  child_name c3 = "h2c-3.jpg" ->
  child_name c1 = "h2c-1.jpg" ->
  child_name c2 = "h2d-2.jpg" ->
  downloadUrlOf c3 <> "" -> downloadUrlOf c1 <> "" -> downloadUrlOf c2 <> "" ->
  localeCompare "h2c" "h2d" < 0 -> 0 < localeCompare "h2d" "h2c" ->
  sortedGroups (groupChildren [c3; c1; c2])
  = [ ("h2c", [ {| num := 1; url := downloadUrlOf c1 |};
                {| num := 3; url := downloadUrlOf c3 |} ]);
      ("h2d", [ {| num := 2; url := downloadUrlOf c2 |} ]) ]
  /\ listing localeCompare [c3; c1; c2]
     = [ {| name := "h2c"; frames := [downloadUrlOf c1; downloadUrlOf c3] |};
         {| name := "h2d"; frames := [downloadUrlOf c2] |} ]
  /\ printers (step localeCompare mount
                 (Settled (Responded true 200 (JsonData (Some [c3; c1; c2])))))
     = [ {| name := "h2c"; frames := [downloadUrlOf c1; downloadUrlOf c3] |};
         {| name := "h2d"; frames := [downloadUrlOf c2] |} ].
Proof.
  intros Hn3 Hn1 Hn2 Hu3 Hu1 Hu2 Hlt Hgt.
  assert (groupChildren [c3; c1; c2]
          = [ ("h2c", [ {| num := 3; url := downloadUrlOf c3 |};
                        {| num := 1; url := downloadUrlOf c1 |} ]);
              ("h2d", [ {| num := 2; url := downloadUrlOf c2 |} ]) ]) as Hmap.
  { unfold groupChildren. simpl.
    rewrite (groupStep_push [] c3 "h2c" "3"); [|by rewrite Hn3|done].
    rewrite (groupStep_push _ c1 "h2c" "1"); [|by rewrite Hn1|done].
    rewrite (groupStep_push _ c2 "h2d" "2"); [|by rewrite Hn2|done].
    generalize (downloadUrlOf c1) (downloadUrlOf c2) (downloadUrlOf c3).
    intros u1 u2 u3. by vm_compute. }
  assert (listing localeCompare [c3; c1; c2]
          = [ {| name := "h2c"; frames := [downloadUrlOf c1; downloadUrlOf c3] |};
              {| name := "h2d"; frames := [downloadUrlOf c2] |} ]) as Hres.
  { unfold listing, buildResult. rewrite Hmap. simpl.
    unfold byNum, byName. simpl.
    destruct (Z.leb_spec (localeCompare "h2c" "h2d") 0); [done|lia]. }
  split; [by rewrite Hmap|]. split; [done|].
  simpl. exact Hres.
Qed.

Lemma C8_listing_groups_witness :
  sortedGroups (groupChildren [child "h2c-3.jpg" "https://files.example/c"; child "h2c-1.jpg" "https://files.example/a";
                               child "h2d-2.jpg" "https://files.example/b"])
  = [ ("h2c", [ {| num := 1; url := "https://files.example/a" |};
                {| num := 3; url := "https://files.example/c" |} ]);
      ("h2d", [ {| num := 2; url := "https://files.example/b" |} ]) ]
  /\ listing codeOrder [child "h2c-3.jpg" "https://files.example/c"; child "h2c-1.jpg" "https://files.example/a";
                        child "h2d-2.jpg" "https://files.example/b"]
     = [ {| name := "h2c"; frames := ["https://files.example/a"; "https://files.example/c"] |};
         {| name := "h2d"; frames := ["https://files.example/b"] |} ]
  /\ printers (step codeOrder mount
                 (Settled (Responded true 200 (JsonData (Some
                    [child "h2c-3.jpg" "https://files.example/c"; child "h2c-1.jpg" "https://files.example/a";
                     child "h2d-2.jpg" "https://files.example/b"])))))
     = [ {| name := "h2c"; frames := ["https://files.example/a"; "https://files.example/c"] |};
         {| name := "h2d"; frames := ["https://files.example/b"] |} ].
Proof.
  apply (C8_listing_groups codeOrder
           (child "h2c-3.jpg" "https://files.example/c") (child "h2c-1.jpg" "https://files.example/a")
           (child "h2d-2.jpg" "https://files.example/b"));
    try reflexivity; try (by vm_compute).
Defined.

(** C9: an entry of the listing that carries neither
    ['@content.downloadUrl'] nor ['@microsoft.graph.downloadUrl'] is left
    out, whatever its name: the groups, the result and the state of the hook
    are those of the listing without the entry, and no error is set. *)
Theorem C9_entry_without_url_is_left_out (localeCompare : string -> string -> Z)
    (before after : list OneDriveChild) (c : OneDriveChild) (status : Z) :
  content_downloadUrl c = None ->
  microsoft_graph_downloadUrl c = None ->
  groupChildren (before ++ c :: after) = groupChildren (before ++ after)
  /\ listing localeCompare (before ++ c :: after)
     = listing localeCompare (before ++ after)
  /\ fetchImages (Responded true status (JsonData (Some (before ++ c :: after))))
     = inr (groupChildren (before ++ after))
  /\ step localeCompare mount
       (Settled (Responded true status (JsonData (Some (before ++ c :: after)))))
     = {| printers := listing localeCompare (before ++ after);
          loading := false; error := None; cancelled := false |}.
Proof.
  intros Hcontent Hgraph.
  assert (groupChildren (before ++ c :: after) = groupChildren (before ++ after))
    as Hsame.
  { rewrite !groupChildren_app. simpl.
    by rewrite groupStep_no_url by by apply downloadUrlOf_absent. }
  split; [done|]. split; [unfold listing; by rewrite Hsame|].
  split; [simpl; by rewrite Hsame|].
  simpl. unfold listing. by rewrite Hsame.
Qed.

Lemma C9_entry_without_url_is_left_out_witness :
  matchName (child_name (bare "h2c-2.jpg")) = Some ("h2c", "2")
  /\ groupChildren ([child "h2c-1.jpg" "a"] ++ bare "h2c-2.jpg" :: [child "h2c-3.jpg" "c"])
     = groupChildren ([child "h2c-1.jpg" "a"] ++ [child "h2c-3.jpg" "c"])
  /\ listing codeOrder ([child "h2c-1.jpg" "a"] ++ bare "h2c-2.jpg" :: [child "h2c-3.jpg" "c"])
     = listing codeOrder ([child "h2c-1.jpg" "a"] ++ [child "h2c-3.jpg" "c"])
  /\ fetchImages (Responded true 200 (JsonData (Some
        ([child "h2c-1.jpg" "a"] ++ bare "h2c-2.jpg" :: [child "h2c-3.jpg" "c"]))))
     = inr (groupChildren ([child "h2c-1.jpg" "a"] ++ [child "h2c-3.jpg" "c"]))
  /\ step codeOrder mount
       (Settled (Responded true 200 (JsonData (Some
          ([child "h2c-1.jpg" "a"] ++ bare "h2c-2.jpg" :: [child "h2c-3.jpg" "c"])))))
     = {| printers := listing codeOrder ([child "h2c-1.jpg" "a"] ++ [child "h2c-3.jpg" "c"]);
          loading := false; error := None; cancelled := false |}.
Proof.
  split; [by vm_compute|].
  apply (C9_entry_without_url_is_left_out codeOrder
           [child "h2c-1.jpg" "a"] [child "h2c-3.jpg" "c"] (bare "h2c-2.jpg") 200);
    reflexivity.
Defined.

End ListingProofs.

(** ** More on the backward scan *)

Module ScanMoreProofs.
Import ImageService ScanTerms ScanProofs.

(** A locator names one printer and one ordinal. *)
Theorem getImageUrl_injective printer1 minute1 printer2 minute2 :
  getImageUrl printer1 minute1 = getImageUrl printer2 minute2 ->
  printer1 = printer2 /\ minute1 = minute2.
Proof.
  intros H.
  assert (printer1 = printer2) as ->.
  { unfold getImageUrl in H. do 2 apply String.app_inj in H.
    destruct printer1, printer2; simpl in H; try done; by injection H. }
  split; [done|]. by apply getImageUrl_inj in H.
Qed.

Lemma getImageUrl_injective_witness :
  h2c = h2c /\ 7 = 7.
Proof. by apply (getImageUrl_injective h2c 7 h2c 7). Defined.

Section Loop.
Variable net : Network.
Variable printer : PrinterId.
Variables count maxGap : Z.

Local Abbreviation loop := (scanLoop net printer count maxGap).
Local Abbreviation hits := (filter (fun m => hit net printer m = true)).
Local Abbreviation missed := (Forall (fun m => hit net printer m = false)).

(** The frames held are those of the probes that hit, in probe order. *)
Lemma loop_hits fuel m res c pr s :
  loop fuel m res c pr = Some s ->
  res = frameAt printer <$> hits pr ->
  results s = frameAt printer <$> hits (probed s).
Proof.
  revert m res c pr. induction fuel as [|fuel IH]; intros m res c pr; [done|].
  destruct (loop_cases net printer count maxGap fuel m res c pr)
    as [[_ ->]|[(_&_&Hx&->)|[(_&_&Hx&_&->)|(_&_&Hx&_&->)]]]; intros Hs Hres.
  - by injection Hs as <-.
  - apply (IH _ _ _ _ Hs). rewrite filter_app, fmap_app, <- Hres.
    by rewrite filter_cons_True by done.
  - apply (IH _ _ _ _ Hs). rewrite filter_app, fmap_app, <- Hres.
    rewrite filter_cons_False by (unfold hit; by rewrite Hx).
    by rewrite app_nil_r.
  - injection Hs as <-. simpl. rewrite filter_app, fmap_app, <- Hres.
    rewrite filter_cons_False by (unfold hit; by rewrite Hx).
    by rewrite app_nil_r.
Qed.

(** Why the loop ends: it holds [count] frames, or it has probed every
    ordinal down to 0, or its last [maxGap] probes all missed. *)
Lemma loop_stop fuel m res c pr s :
  1 <= maxGap ->
  loop fuel m res c pr = Some s ->
  0 <= c < maxGap ->
  (exists before tail, pr = before ++ tail /\ Z.of_nat (length tail) = c /\ missed tail) ->
  count <= Z.of_nat (length (results s))
  \/ Z.of_nat (length (probed s)) - Z.of_nat (length pr) = Z.max (m + 1) 0
  \/ (exists before tail,
        probed s = before ++ tail /\ Z.of_nat (length tail) = maxGap /\ missed tail).
Proof.
  intros Hgap.
  revert m res c pr. induction fuel as [|fuel IH]; intros m res c pr; [done|].
  destruct (loop_cases net printer count maxGap fuel m res c pr)
    as [[Hn ->]|[(Hm&Hc&Hx&->)|[(Hm&Hc&Hx&Hg&->)|(Hm&Hc&Hx&Hg&->)]]];
    intros Hs Hcb (before & tail & Hpr & Hlen & Hmiss).
  - injection Hs as <-. simpl.
    destruct (decide (m >= 0)); [left; lia|right; left; lia].
  - assert (exists before' tail', pr ++ [m] = before' ++ tail'
              /\ Z.of_nat (length tail') = 0 /\ missed tail') as Htail.
    { exists (pr ++ [m]), []. rewrite app_nil_r. split; [done|]. split; [done|constructor]. }
    destruct (IH _ _ _ _ Hs ltac:(lia) Htail) as [?|[Hk|?]];
      [by left| |by right; right].
    right; left. rewrite length_app in Hk. simpl in Hk. lia.
  - assert (exists before' tail', pr ++ [m] = before' ++ tail'
              /\ Z.of_nat (length tail') = c + 1 /\ missed tail') as Htail.
    { exists before, (tail ++ [m]). rewrite Hpr, <- app_assoc.
      split; [done|]. split; [rewrite length_app; simpl; lia|].
      apply Forall_app. split; [done|]. by repeat constructor. }
    destruct (IH _ _ _ _ Hs ltac:(lia) Htail) as [?|[Hk|?]];
      [by left| |by right; right].
    right; left. rewrite length_app in Hk. simpl in Hk. lia.
  - injection Hs as <-. simpl. right; right.
    exists before, (tail ++ [m]). rewrite Hpr, <- app_assoc.
    split; [done|]. split; [rewrite length_app; simpl; lia|].
    apply Forall_app. split; [done|]. by repeat constructor.
Qed.

(** Each frame is collected at most [maxGap] below the one collected
    before it: [m + c + 1] is that one's ordinal (or the start, plus one). *)
Lemma loop_spaced fuel m res c pr s :
  loop fuel m res c pr = Some s ->
  0 <= c < maxGap ->
  exists new, results s = res ++ new /\ spaced maxGap (m + c + 1) (minute <$> new).
Proof.
  revert m res c pr. induction fuel as [|fuel IH]; intros m res c pr; [done|].
  destruct (loop_cases net printer count maxGap fuel m res c pr)
    as [[Hn ->]|[(Hm&Hc&Hx&->)|[(Hm&Hc&Hx&Hg&->)|(Hm&Hc&Hx&Hg&->)]]];
    intros Hs Hcb.
  - injection Hs as <-. exists []. by rewrite app_nil_r.
  - destruct (IH _ _ _ _ Hs ltac:(lia)) as (new & -> & Hsp).
    exists (frameAt printer m :: new). rewrite <- app_assoc. split; [done|].
    simpl. split; [lia|]. by replace (m - 1 + 0 + 1) with m in Hsp by lia.
  - destruct (IH _ _ _ _ Hs ltac:(lia)) as (new & -> & Hsp).
    exists new. split; [done|].
    by replace (m - 1 + (c + 1) + 1) with (m + c + 1) in Hsp by lia.
  - injection Hs as <-. exists []. by rewrite app_nil_r.
Qed.
End Loop.

(** The scan returns the frames of exactly those probed ordinals whose
    image loaded, oldest first. *)
Theorem scan_returns_the_hits net printer startOrdinal maxCount maxGap s :
  findRecentImagesTraced net printer startOrdinal maxCount maxGap = Some s ->
  results s
  = reverse (frameAt printer <$> filter (fun m => hit net printer m = true) (probed s))
  /\ (forall f, f ∈ results s <->
                exists m, f = frameAt printer m /\ m ∈ probed s
                          /\ hit net printer m = true).
Proof.
  intros (s0 & Hloop & Hres & Hpr)%findRecentImagesTraced_inv.
  apply loop_hits in Hloop; [|done].
  assert (results s = reverse (frameAt printer <$>
            filter (fun m => hit net printer m = true) (probed s))) as Heq
    by (by rewrite Hres, Hloop, Hpr).
  split; [done|]. intros f. rewrite Heq, elem_of_reverse, list_elem_of_fmap.
  split.
  - intros (m & -> & [? ?]%list_elem_of_filter). eauto.
  - intros (m & -> & ? & ?). exists m. split; [done|]. by apply list_elem_of_filter.
Qed.

Lemma scan_returns_the_hits_witness :
  [frameAt h2c 3; frameAt h2c 5]
  = reverse (frameAt h2c <$>
       filter (fun m => hit (hitsAt h2c [5; 3]) h2c m = true) [5; 4; 3; 2; 1; 0])
  /\ (forall f, f ∈ [frameAt h2c 3; frameAt h2c 5] <->
                exists m, f = frameAt h2c m /\ m ∈ [5; 4; 3; 2; 1; 0]
                          /\ hit (hitsAt h2c [5; 3]) h2c m = true).
Proof.
  apply (scan_returns_the_hits (hitsAt h2c [5; 3]) h2c 5 60 3
           {| results := [frameAt h2c 3; frameAt h2c 5];
              probed := [5; 4; 3; 2; 1; 0] |}).
  by vm_compute.
Defined.

(** For [maxGap >= 1] the scan ends for one of three reasons: it has
    [maxCount] frames, it has probed every ordinal from the start down to 0,
    or its last [maxGap] probes all missed. *)
Theorem scan_stops_for_a_reason net printer startOrdinal maxCount maxGap s :
  1 <= maxGap ->
  findRecentImagesTraced net printer startOrdinal maxCount maxGap = Some s ->
  maxCount <= Z.of_nat (length (results s))
  \/ probed s = downFrom startOrdinal (Z.to_nat (startOrdinal + 1))
  \/ (exists before tail,
        probed s = before ++ tail /\ Z.of_nat (length tail) = maxGap
        /\ Forall (fun m => hit net printer m = false) tail).
Proof.
  intros Hgap (s0 & Hloop & Hres & Hpr)%findRecentImagesTraced_inv.
  destruct (loop_probed _ _ _ _ _ _ _ _ _ _ Hloop) as (k & Hk & Hkle).
  assert (exists before tail : list Z, [] = before ++ tail
            /\ Z.of_nat (length tail) = 0
            /\ Forall (fun m => hit net printer m = false) tail) as Htail
    by (exists [], []; split; [done|]; split; [done|constructor]).
  destruct (loop_stop _ _ _ _ _ _ _ _ _ _ Hgap Hloop ltac:(lia) Htail) as [?|[Hall|?]].
  - left. by rewrite Hres, length_reverse.
  - right; left. rewrite Hpr, Hk. simpl in *. rewrite Hk in Hall. simpl in Hall.
    rewrite downFrom_length in Hall. f_equal. lia.
  - right; right. by rewrite Hpr.
Qed.

Lemma scan_stops_for_a_reason_witness :
  60 <= Z.of_nat (length [frameAt h2c 3; frameAt h2c 5])
  \/ [5; 4; 3; 2; 1; 0] = downFrom 5 (Z.to_nat (5 + 1))
  \/ (exists before tail,
        [5; 4; 3; 2; 1; 0] = before ++ tail /\ Z.of_nat (length tail) = 3
        /\ Forall (fun m => hit (hitsAt h2c [5; 3]) h2c m = false) tail).
Proof.
  apply (scan_stops_for_a_reason (hitsAt h2c [5; 3]) h2c 5 60 3
           {| results := [frameAt h2c 3; frameAt h2c 5];
              probed := [5; 4; 3; 2; 1; 0] |}); [lia|by vm_compute].
Defined.

(** For [maxGap >= 1], read from the newest frame back, the frames returned
    are each at most [maxGap] ordinals below the one before, and the newest
    is less than [maxGap] below the start. *)
Theorem scan_frames_are_spaced net printer startOrdinal maxCount maxGap images :
  1 <= maxGap ->
  findRecentImages net printer startOrdinal maxCount maxGap = Some images ->
  spaced maxGap (startOrdinal + 1) (minute <$> reverse images).
Proof.
  intros Hgap H. unfold findRecentImages in H.
  destruct (findRecentImagesTraced _ _ _ _ _) as [s|] eqn:Hs; [|done].
  injection H as <-.
  apply findRecentImagesTraced_inv in Hs as (s0 & Hloop & -> & _).
  rewrite reverse_involutive.
  destruct (loop_spaced _ _ _ _ _ _ _ _ _ _ Hloop ltac:(lia)) as (new & -> & Hsp).
  simpl. by replace (startOrdinal + 0 + 1) with (startOrdinal + 1) in Hsp by lia.
Qed.

Lemma scan_frames_are_spaced_witness :
  spaced 3 (5 + 1) (minute <$> reverse [frameAt h2c 3; frameAt h2c 5]).
Proof.
  apply (scan_frames_are_spaced (hitsAt h2c [5; 3]) h2c 5 60 3); [lia|by vm_compute].
Defined.

(** Two scans of the same network from the same state, the second with
    at least the count and the gap of the first, go the same way until the
    first ends; the second can only collect more. *)
Lemma loop_extends net printer count1 gap1 count2 gap2 fuel m res c pr s1 s2 :
  count1 <= count2 -> gap1 <= gap2 ->
  scanLoop net printer count1 gap1 fuel m res c pr = Some s1 ->
  scanLoop net printer count2 gap2 fuel m res c pr = Some s2 ->
  results s1 `prefix_of` results s2.
Proof.
  intros Hcount Hgap.
  revert m res c pr. induction fuel as [|fuel IH]; intros m res c pr; [done|].
  destruct (loop_cases net printer count1 gap1 fuel m res c pr)
    as [[Hn ->]|[(Hm&Hc&Hx&->)|[(Hm&Hc&Hx&Hg&->)|(Hm&Hc&Hx&Hg&->)]]];
    intros H1 H2.
  - injection H1 as <-. simpl.
    apply loop_results in H2 as (new & -> & _). by exists new.
  - rewrite loop_hit in H2 by (try done; lia). by apply (IH _ _ _ _ H1).
  - rewrite loop_miss in H2 by (try done; lia). by apply (IH _ _ _ _ H1).
  - injection H1 as <-. simpl.
    apply loop_results in H2 as (new & -> & _). by exists new.
Qed.

(** Asking for more frames, or allowing longer gaps, never changes the
    frames already returned: the shorter answer is the newest end of the
    longer one. *)
Theorem scan_with_more_extends net printer startOrdinal
    maxCount1 maxGap1 maxCount2 maxGap2 images1 images2 :
  maxCount1 <= maxCount2 -> maxGap1 <= maxGap2 ->
  findRecentImages net printer startOrdinal maxCount1 maxGap1 = Some images1 ->
  findRecentImages net printer startOrdinal maxCount2 maxGap2 = Some images2 ->
  images1 `suffix_of` images2.
Proof.
  intros Hcount Hgap H1 H2. unfold findRecentImages in *.
  destruct (findRecentImagesTraced _ _ _ maxCount1 _) as [s1|] eqn:Hs1; [|done].
  destruct (findRecentImagesTraced _ _ _ maxCount2 _) as [s2|] eqn:Hs2; [|done].
  injection H1 as <-. injection H2 as <-.
  apply findRecentImagesTraced_inv in Hs1 as (t1 & Hl1 & -> & _).
  apply findRecentImagesTraced_inv in Hs2 as (t2 & Hl2 & -> & _).
  destruct (loop_extends _ _ _ _ _ _ _ _ _ _ _ _ _ Hcount Hgap Hl1 Hl2)
    as [new Hnew].
  exists (reverse new). by rewrite Hnew, reverse_app.
Qed.

Lemma scan_with_more_extends_witness :
  [frameAt h2c 5] `suffix_of` [frameAt h2c 1; frameAt h2c 3; frameAt h2c 5].
Proof.
  apply (scan_with_more_extends (hitsAt h2c [5; 3; 1]) h2c 5 60 1 60 2);
    [lia|lia|by vm_compute|by vm_compute].
Defined.

End ScanMoreProofs.

(** ** More on the frame store *)

Module StoreMoreProofs.
Import ImageService FrameStore StoreTerms StoreProofs.

(** A refresh rearranges the store and the frames with new ordinals:
    nothing the store held is dropped, nothing else comes in. *)
Lemma setFrames_refresh_Permutation images prev :
  setFrames false images prev ≡ₚ prev ++ notIn (minutesOf prev) images.
Proof.
  unfold setFrames, mergeFrames. simpl. destruct prev as [|p prev].
  - simpl. change (minutesOf []) with (∅ : gset Z). by rewrite notIn_empty.
  - rewrite (bool_decide_eq_true_2 (0 < _)%nat) by (simpl; lia).
    case_bool_decide as Hlen.
    + apply nil_length_inv in Hlen. rewrite Hlen. simpl. by rewrite app_nil_r.
    + apply (SortProofs.sort_Permutation byMinute).
Qed.

Lemma elem_of_minutes_notIn m prev images :
  m ∈ minute <$> notIn (minutesOf prev) images
  <-> (m ∉ minute <$> prev) /\ (m ∈ minute <$> images).
Proof.
  rewrite !list_elem_of_fmap. split.
  - intros (f & -> & [Hout Hin]%elem_of_notIn). split; [|eauto].
    intros Hm. by apply Hout, elem_of_minutesOf, list_elem_of_fmap.
  - intros [Hout (f & -> & Hin)]. exists f. split; [done|].
    apply elem_of_notIn. split; [|done].
    intros Hm%elem_of_minutesOf. by apply Hout, list_elem_of_fmap.
Qed.

Lemma elem_of_minutes_refresh m images prev :
  m ∈ minute <$> setFrames false images prev
  <-> (m ∈ minute <$> prev) \/ (m ∈ minute <$> images).
Proof.
  rewrite setFrames_refresh_Permutation, fmap_app, elem_of_app,
    elem_of_minutes_notIn.
  destruct (decide (m ∈ minute <$> prev)); tauto.
Qed.

Lemma setFrames_refresh_length images prev :
  (length prev <= length (setFrames false images prev))%nat.
Proof. rewrite setFrames_refresh_Permutation, length_app. lia. Qed.

(** What a refresh does to the store: the frames it held stay, with the
    frames of the result whose ordinals are new; the ordinals held
    afterwards are those held before and those discovered; the store does
    not get shorter. *)
Theorem refresh_keeps_and_adds (images prev : list Frame) :
  setFrames false images prev ≡ₚ prev ++ notIn (minutesOf prev) images
  /\ minutesOf (setFrames false images prev) = minutesOf prev ∪ minutesOf images
  /\ (forall f, f ∈ prev -> f ∈ setFrames false images prev)
  /\ (length prev <= length (setFrames false images prev))%nat.
Proof.
  split; [apply setFrames_refresh_Permutation|]. split; [|split].
  - apply set_eq. intros m.
    rewrite elem_of_union, !elem_of_minutesOf. apply elem_of_minutes_refresh.
  - intros f Hf. rewrite setFrames_refresh_Permutation, elem_of_app. by left.
  - rewrite setFrames_refresh_Permutation, length_app. lia.
Qed.

(** Merging the same result a second time changes nothing, and on a store
    that is not empty it is not even signalled. *)
Theorem refresh_twice (images prev : list Frame) :
  setFrames false images (setFrames false images prev)
  = setFrames false images prev
  /\ (setFrames false images prev <> [] ->
      mergeFrames false images (setFrames false images prev) = SameValue).
Proof.
  assert (setFrames false images prev <> [] ->
          mergeFrames false images (setFrames false images prev) = SameValue)
    as Hsame.
  { intros Hne. unfold mergeFrames at 1. simpl.
    destruct (setFrames false images prev) as [|f st] eqn:Hst; [done|].
    rewrite (bool_decide_eq_true_2 (0 < _)%nat) by (simpl; lia).
    rewrite bool_decide_eq_true_2; [done|].
    assert (allPresent images (f :: st)) as Hall.
    { intros g Hg. rewrite <- Hst. apply elem_of_minutes_refresh. right.
      by apply list_elem_of_fmap_2. }
    apply notIn_nil_iff in Hall. by rewrite Hall. }
  split; [|done].
  destruct (decide (setFrames false images prev = [])) as [Hnil|Hne].
  - rewrite Hnil.
    pose proof (setFrames_refresh_Permutation images prev) as Hperm.
    rewrite Hnil in Hperm. apply Permutation_nil in Hperm.
    apply app_eq_nil in Hperm as [-> Himg].
    change (minutesOf []) with (∅ : gset Z) in Himg.
    rewrite notIn_empty in Himg. by rewrite Himg.
  - unfold setFrames at 1. by rewrite (Hsame Hne).
Qed.

Lemma refresh_twice_witness :
  setFrames false [frameAt h2c 11; frameAt h2c 12]
    (setFrames false [frameAt h2c 11; frameAt h2c 12] [frameAt h2c 10; frameAt h2c 12])
  = setFrames false [frameAt h2c 11; frameAt h2c 12] [frameAt h2c 10; frameAt h2c 12]
  /\ mergeFrames false [frameAt h2c 11; frameAt h2c 12]
       (setFrames false [frameAt h2c 11; frameAt h2c 12] [frameAt h2c 10; frameAt h2c 12])
     = SameValue.
Proof.
  destruct (refresh_twice [frameAt h2c 11; frameAt h2c 12]
                          [frameAt h2c 10; frameAt h2c 12]) as [Heq Hsame].
  split; [exact Heq|]. apply Hsame. by vm_compute.
Defined.

(** *** Stores of one printer *)

Lemma ofPrinter_determined printer l :
  ofPrinter printer l -> l = frameAt printer <$> (minute <$> l).
Proof.
  induction 1 as [|f l [Hf _] _ IH]; [done|]. rewrite !fmap_cons. by f_equal.
Qed.

Lemma IsDiscovery_ofPrinter printer images :
  IsDiscovery printer images -> ofPrinter printer images.
Proof.
  intros (net & now & H).
  apply ScanProofs.findRecentImages_ascending in H as [_ H].
  eapply Forall_impl; [exact H|]. simpl. intros f ([? _] & ? & _). done.
Qed.

Lemma setFrames_ofPrinter printer isInitial images prev :
  ofPrinter printer prev -> ofPrinter printer images ->
  ofPrinter printer (setFrames isInitial images prev).
Proof.
  intros Hp Hi. destruct isInitial.
  - by unfold setFrames, mergeFrames.
  - unfold ofPrinter. rewrite setFrames_refresh_Permutation.
    apply Forall_app. split; [done|].
    apply Forall_forall. intros f [_ Hf]%elem_of_notIn.
    unfold ofPrinter in Hi. rewrite Forall_forall in Hi. by apply Hi.
Qed.

(** Two strictly ascending stores of one printer with the same ordinals
    are the same store. *)
Lemma ascending_stores_equal printer l1 l2 :
  ofPrinter printer l1 -> ofPrinter printer l2 ->
  StrictlyAscending l1 -> StrictlyAscending l2 ->
  (forall m, m ∈ minute <$> l1 <-> m ∈ minute <$> l2) ->
  l1 = l2.
Proof.
  intros H1 H2 Hs1 Hs2 Hsame.
  rewrite (ofPrinter_determined printer l1), (ofPrinter_determined printer l2)
    by done.
  f_equal. apply (StronglySorted_unique_strong Z.lt); [intros; lia|done|done|].
  apply NoDup_Permutation; [by apply StrictlyAscending_NoDup..|done].
Qed.

(** Two refreshes of one printer's store bring the same store in either
    order. *)
Theorem refreshes_commute printer (prev first second : list Frame) :
  ofPrinter printer prev -> StrictlyAscending prev ->
  IsDiscovery printer first -> IsDiscovery printer second ->
  setFrames false second (setFrames false first prev)
  = setFrames false first (setFrames false second prev).
Proof.
  intros Hp Hs Hd1 Hd2.
  pose proof (IsDiscovery_ofPrinter _ _ Hd1) as Ho1.
  pose proof (IsDiscovery_ofPrinter _ _ Hd2) as Ho2.
  pose proof (IsDiscovery_ascending _ _ Hd1) as Ha1.
  pose proof (IsDiscovery_ascending _ _ Hd2) as Ha2.
  apply (ascending_stores_equal printer).
  - by repeat apply setFrames_ofPrinter.
  - by repeat apply setFrames_ofPrinter.
  - by repeat apply setFrames_ascending.
  - by repeat apply setFrames_ascending.
  - intros m. rewrite !elem_of_minutes_refresh. tauto.
Qed.

Lemma refreshes_commute_witness :
  setFrames false [frameAt h2c 12; frameAt h2c 13]
    (setFrames false [frameAt h2c 9; frameAt h2c 11] [frameAt h2c 10; frameAt h2c 12])
  = setFrames false [frameAt h2c 9; frameAt h2c 11]
      (setFrames false [frameAt h2c 12; frameAt h2c 13] [frameAt h2c 10; frameAt h2c 12]).
Proof.
  apply (refreshes_commute h2c).
  - unfold ofPrinter. repeat constructor; simpl; lia.
  - unfold StrictlyAscending. repeat constructor; simpl; lia.
  - exists (hitsAt h2c [9; 11]), 11. by vm_compute.
  - exists (hitsAt h2c [12; 13]), 13. by vm_compute.
Defined.

End StoreMoreProofs.

(** ** More on the start/stop view *)

Module HybridMoreProofs.
Import ImageService FrameStore ViewTerms HybridView.

Lemma withIndex_frames s i play : frames (withIndex s i play) = frames s.
Proof. done. Qed.

Lemma render_player s shown :
  render s = ShowPlayer shown ->
  loading s = false /\ frames s <> [] /\ shown = currentFrame s.
Proof.
  unfold render. destruct (negb (live s) && negb (hasLoaded s)); [done|].
  destruct (loading s); [done|].
  destruct (negb (live s) && hasLoaded s); [done|].
  case_bool_decide as Hlen; [done|]. intros [= <-].
  repeat split. by intros Hnil; rewrite Hnil in Hlen.
Qed.

Lemma inPlayer_true s :
  inPlayer s = true -> loading s = false /\ frames s <> [].
Proof.
  unfold inPlayer. destruct (render s) eqn:Hr; try done.
  apply render_player in Hr as (? & ? & _). done.
Qed.

Lemma step_indexInStore s e s' :
  indexInStore s -> step s e = Some s' -> indexInStore s'.
Proof.
  unfold indexInStore. intros Hinv Hstep.
  destruct e; simpl in Hstep.
  - destruct (render s); try done; by injection Hstep as <-.
  - destruct (inPlayer s); [|done]. by injection Hstep as <-.
  - destruct (refreshTimer s); [|done]. by injection Hstep as <-.
  - unfold playTimer in Hstep. destruct (playing s); simpl in Hstep; [|done].
    case_bool_decide; [|done]. injection Hstep as <-. simpl.
    case_bool_decide; lia.
  - destruct (inFlight s !! call) as [isInitial|]; [|done].
    injection Hstep as <-. simpl. destruct isInitial.
    + unfold setFrames, mergeFrames. simpl. case_bool_decide; lia.
    + pose proof (StoreMoreProofs.setFrames_refresh_length images (frames s)). lia.
  - destruct (inPlayer s) eqn:Hp; simpl in Hstep; [|done].
    case_bool_decide; [|done]. injection Hstep as <-. simpl. lia.
  - destruct (inPlayer s); [|done]. injection Hstep as <-. simpl. lia.
  - destruct (inPlayer s); [|done]. injection Hstep as <-. simpl. lia.
  - destruct (inPlayer s); [|done]. by injection Hstep as <-.
  - destruct (inPlayer s) eqn:Hp; [|done]. injection Hstep as <-. simpl.
    apply inPlayer_true in Hp as [_ Hne]. destruct (frames s); [done|].
    simpl in *. lia.
  - destruct (inPlayer s) eqn:Hp; [|done]. injection Hstep as <-. simpl.
    apply inPlayer_true in Hp as [_ Hne]. destruct (frames s); [done|].
    simpl in *. lia.
  - destruct (inPlayer s); simpl in Hstep; [|done].
    case_bool_decide; [|done]. by injection Hstep as <-.
Qed.

(** In every state the start/stop view reaches, the index is between 0 and
    the last position of the store (0 on an empty store), and whenever the
    player is rendered the frame [frames[currentIndex]] it reads exists. *)
Theorem player_frame_always_exists (printer : PrinterId) (s : State) :
  reachable printer s ->
  0 <= currentIndex s <= Z.max (Z.of_nat (length (frames s)) - 1) 0
  /\ (forall shown, render s = ShowPlayer shown ->
        is_Some shown /\ shown = frames s !! Z.to_nat (currentIndex s)).
Proof.
  intros Hreach.
  assert (indexInStore s) as Hinv.
  { induction Hreach as [|s e s' _ IH _ Hstep]; [by vm_compute|].
    by apply (step_indexInStore s e). }
  split; [done|]. intros shown (_ & Hne & ->)%render_player.
  unfold indexInStore in Hinv. unfold currentFrame.
  rewrite bool_decide_eq_false_2 by lia. split; [|done].
  apply lookup_lt_is_Some. destruct (frames s); [done|]. simpl in *. lia.
Qed.

Lemma hybrid_run_reachable printer es : forall s s',
  reachable printer s -> Forall (admissible printer) es ->
  run s es = Some s' -> reachable printer s'.
Proof.
  induction es as [|e es IH]; intros s s' Hs Hadm Hrun; simpl in Hrun.
  - by injection Hrun as <-.
  - apply Forall_cons in Hadm as [He Hes].
    destruct (step s e) as [s1|] eqn:Hstep; [|done].
    apply (IH s1); [|done|done]. by apply (reach_step printer s e).
Qed.

Lemma playerExample_reachable : reachable h2c playerExample.
Proof.
  apply (hybrid_run_reachable h2c [StartFeed; Resolved 0 firstLoad] mount);
    [constructor| |by vm_compute].
  repeat constructor. exists (hitsAt h2c [10; 12]), 12. by vm_compute.
Qed.

Lemma player_frame_always_exists_witness :
  0 <= currentIndex playerExample
    <= Z.max (Z.of_nat (length (frames playerExample)) - 1) 0
  /\ is_Some (Some (frameAt h2c 12))
  /\ Some (frameAt h2c 12)
     = frames playerExample !! Z.to_nat (currentIndex playerExample).
Proof.
  destruct (player_frame_always_exists h2c playerExample playerExample_reachable)
    as [Hidx Hshown].
  split; [exact Hidx|]. apply Hshown. reflexivity.
Defined.

(** Pending loads of a list after one of them is taken out. *)
Lemma pendingInitial_app l k :
  pendingInitial (l ++ k) = (pendingInitial l + pendingInitial k)%nat.
Proof. unfold pendingInitial. by rewrite filter_app, length_app. Qed.

Lemma pendingInitial_delete (l : list bool) (call : nat) (isInitial : bool) :
  l !! call = Some isInitial ->
  pendingInitial l
  = ((if isInitial then 1 else 0) + pendingInitial (delete call l))%nat.
Proof.
  intros Hl. rewrite <- (take_drop_middle l call isInitial Hl) at 1.
  rewrite delete_take_drop, !pendingInitial_app.
  change (isInitial :: drop (S call) l) with ([isInitial] ++ drop (S call) l).
  rewrite pendingInitial_app. destruct isInitial; unfold pendingInitial; simpl; lia.
Qed.

Lemma step_loadingMatchesPending s e s' :
  loadingMatchesPending s -> step s e = Some s' -> loadingMatchesPending s'.
Proof.
  unfold loadingMatchesPending. intros [Hcount Hlive] Hstep.
  destruct e; simpl in Hstep.
  - assert (loading s = false) as Hl.
    { unfold render in Hstep. destruct (loading s); [|done].
      rewrite Hlive in Hstep by done. simpl in Hstep. done. }
    rewrite Hl in Hcount.
    destruct (render s); try done; injection Hstep as <-; simpl;
      rewrite pendingInitial_app, Hcount; by vm_compute.
  - destruct (inPlayer s) eqn:Hp; [|done]. injection Hstep as <-. simpl.
    apply inPlayer_true in Hp as [Hl _]. rewrite Hl in *. done.
  - destruct (refreshTimer s); [|done]. injection Hstep as <-. simpl.
    rewrite pendingInitial_app, Hcount. split; [|done].
    destruct (loading s); by vm_compute.
  - destruct (playTimer s) as [[? ?]|]; [|done]. by injection Hstep as <-.
  - destruct (inFlight s !! call) as [isInitial|] eqn:Hcall; [|done].
    injection Hstep as <-. simpl.
    rewrite (pendingInitial_delete _ _ _ Hcall) in Hcount.
    destruct isInitial; [|done]. destruct (loading s); [|done].
    split; [lia|done].
  - destruct (inPlayer s); simpl in Hstep; [|done].
    case_bool_decide; [|done]. by injection Hstep as <-.
  - destruct (inPlayer s); [|done]. by injection Hstep as <-.
  - destruct (inPlayer s); [|done]. by injection Hstep as <-.
  - destruct (inPlayer s); [|done]. by injection Hstep as <-.
  - destruct (inPlayer s); [|done]. by injection Hstep as <-.
  - destruct (inPlayer s); [|done]. by injection Hstep as <-.
  - destruct (inPlayer s); simpl in Hstep; [|done].
    case_bool_decide; [|done]. by injection Hstep as <-.
Qed.

(** In every state the start/stop view reaches, the loading screen is up
    exactly while a first load is pending, there is never more than one, and
    it is never up on a stopped view; so the scan that ends the loading
    screen is always on its way. *)
Theorem loading_screen_has_a_pending_load (printer : PrinterId) (s : State) :
  reachable printer s ->
  pendingInitial (inFlight s) = (if loading s then 1 else 0)%nat
  /\ (loading s = true -> live s = true)
  /\ (loading s = true ->
      exists call images s',
        inFlight s !! call = Some true
        /\ step s (Resolved call images) = Some s' /\ loading s' = false).
Proof.
  intros Hreach.
  assert (loadingMatchesPending s) as [Hcount Hlive].
  { induction Hreach as [|s e s' _ IH _ Hstep]; [by vm_compute|].
    by apply (step_loadingMatchesPending s e). }
  split; [done|]. split; [done|]. intros Hl. rewrite Hl in Hcount.
  assert (true ∈ inFlight s) as Hin.
  { unfold pendingInitial in Hcount.
    destruct (filter _ (inFlight s)) as [|b bs] eqn:Hf; [done|].
    assert (b ∈ filter (fun isInitial => isInitial = true) (inFlight s)) as Hb
      by (rewrite Hf; left).
    by apply list_elem_of_filter in Hb as [-> ?]. }
  apply list_elem_of_lookup in Hin as [call Hcall].
  exists call, []. eexists. split; [done|]. simpl. rewrite Hcall. done.
Qed.

Lemma loading_screen_has_a_pending_load_witness :
  pendingInitial (inFlight (callLoadImages mount true true)) = 1%nat
  /\ (exists call images s',
        inFlight (callLoadImages mount true true) !! call = Some true
        /\ step (callLoadImages mount true true) (Resolved call images) = Some s'
        /\ loading s' = false).
Proof.
  destruct (loading_screen_has_a_pending_load h2c (callLoadImages mount true true))
    as (Hcount & _ & Hpending).
  { apply (reach_step h2c mount StartFeed); [constructor|done|done]. }
  split; [exact Hcount|]. apply Hpending. reflexivity.
Defined.

End HybridMoreProofs.

(** ** More on the live-loop view, and the stores of both views *)

Module LiveMoreProofs.
Import ImageService FrameStore StoreTerms LiveView.

(** In every state the live-loop view reaches, a tick of the loop timer
    moves the index shown one frame on inside the loop window and from the
    last frame back to the first; the store is not touched. *)
Theorem loop_tick_advances (printer : PrinterId) (s : State) (len : Z) :
  reachable printer s ->
  loopTimer s = Some len ->
  exists s',
    step s LoopTick = Some s'
    /\ len = Z.min (Z.of_nat LOOP_COUNT) (Z.of_nat (length (frames s)))
    /\ frames s' = frames s
    /\ safeIndex s' = (safeIndex s + 1) `mod` len.
Proof.
  intros Hreach Htimer. simpl. rewrite Htimer. eexists. split; [done|].
  pose proof (LiveViewProofs.reachable_loopIndex printer s Hreach) as Hidx.
  apply LiveViewProofs.loopTimer_Some in Htimer as [Hlen Hgt].
  split; [by rewrite Hlen, LiveViewProofs.loopFrames_length|]. split; [done|].
  unfold safeIndex, loopFrames. simpl. fold (loopFrames s). rewrite <- Hlen.
  rewrite !bool_decide_eq_true_2 by lia.
  rewrite (Z.rem_mod_nonneg (loopIndex s)) by lia.
  rewrite (Z.rem_mod_nonneg (loopIndex s + 1)) by lia.
  rewrite Z.rem_mod_nonneg; [|apply Z.mod_pos_bound; lia|lia].
  rewrite Z.mod_mod by lia. by rewrite Z.add_mod_idemp_l by lia.
Qed.

Lemma loop_tick_advances_witness :
  exists s',
    step exampleState LoopTick = Some s'
    /\ 3 = Z.min (Z.of_nat LOOP_COUNT) (Z.of_nat (length (frames exampleState)))
    /\ frames s' = frames exampleState
    /\ safeIndex s' = (safeIndex exampleState + 1) `mod` 3.
Proof.
  apply (loop_tick_advances h2c exampleState 3).
  - apply LiveViewProofs.exampleState_reachable.
  - reflexivity.
Defined.





End LiveMoreProofs.

(** ** More on the listing: what the groups hold *)

Module ListingMoreProofs.
Import OneDrive ListingTerms ListingView.

(** *** The [Map] operations *)

Lemma mapHas_true k m : mapHas k m = true <-> k ∈ m.*1.
Proof. unfold mapHas. apply bool_decide_eq_true. Qed.

Lemma mapSet_fresh k v (m : PrinterMap) : k ∉ m.*1 -> mapSet k v m = m ++ [(k, v)].
Proof.
  induction m as [|[k' v'] m IH]; simpl; [done|].
  intros [Hne Hm]%not_elem_of_cons.
  rewrite bool_decide_eq_false_2 by done. by rewrite IH.
Qed.

(** With every key held once, [mapPush] changes the array under [k] and
    nothing else. *)
Lemma mapPush_fmap k x (m : PrinterMap) :
  NoDup m.*1 ->
  mapPush k x m
  = (fun g : string * list NumUrl =>
       if bool_decide (g.1 = k) then (g.1, g.2 ++ [x]) else g) <$> m.
Proof.
  induction m as [|[k' v'] m IH]; simpl; [done|].
  intros [Hk' Hm]%NoDup_cons. case_bool_decide as Hk.
  - subst k'. f_equal. clear IH. induction m as [|[k2 v2] m IH]; simpl; [done|].
    simpl in Hk'. apply not_elem_of_cons in Hk' as [Hne Hk'].
    apply NoDup_cons in Hm as [_ Hm].
    rewrite bool_decide_eq_false_2 by done. by rewrite <- IH.
  - by rewrite IH.
Qed.

Lemma accepted_groupStep printerMap c :
  groupStep printerMap c
  = match accepted c with
    | None => printerMap
    | Some (k, x) =>
        mapPush k x (if mapHas k printerMap then printerMap
                     else mapSet k [] printerMap)
    end.
Proof.
  unfold groupStep, accepted. destruct (matchName _) as [[k d]|]; [|done].
  by case_bool_decide.
Qed.

Lemma framesFor_snoc k children c :
  framesFor k (children ++ [c])
  = framesFor k children
    ++ match accepted c with
       | Some (k', x) => if bool_decide (k' = k) then [x] else []
       | None => []
       end.
Proof.
  unfold framesFor. rewrite omap_app, filter_app, fmap_app. f_equal.
  simpl. destruct (accepted c) as [[k' x]|]; simpl; [|done].
  case_bool_decide.
  - by rewrite filter_cons_True by done.
  - by rewrite filter_cons_False by done.
Qed.

Lemma pushed_keys k x (m : PrinterMap) :
  ((fun g : string * list NumUrl =>
      if bool_decide (g.1 = k) then (g.1, g.2 ++ [x]) else g) <$> m).*1 = m.*1.
Proof.
  induction m as [|g m IH]; [done|]. rewrite !fmap_cons, IH. f_equal.
  by case_bool_decide.
Qed.

Lemma groupStep_holds m children c :
  holds m children -> holds (groupStep m c) (children ++ [c]).
Proof.
  intros (Hnd & Hall & Hkeys). rewrite accepted_groupStep.
  destruct (accepted c) as [[k x]|] eqn:Hacc.
  - set (m0 := if mapHas k m then m else mapSet k [] m).
    assert (NoDup m0.*1 /\ k ∈ m0.*1
            /\ Forall (fun g : string * list NumUrl =>
                         g.2 = framesFor g.1 children
                         /\ (g.1 <> k -> g.2 <> [])) m0
            /\ (forall k', k' ∈ m.*1 -> k' ∈ m0.*1)) as (Hnd0 & Hk0 & Hall0 & Hsub).
    { unfold m0. destruct (mapHas k m) eqn:Hhas.
      - apply mapHas_true in Hhas. repeat split; try done.
        eapply Forall_impl; [exact Hall|]. simpl. tauto.
      - assert (k ∉ m.*1) as Hfresh.
        { intros Hin%mapHas_true. by rewrite Hin in Hhas. }
        rewrite mapSet_fresh by done. rewrite fmap_app. simpl.
        split; [|split; [|split]].
        + apply NoDup_app. split; [done|]. split; [|apply NoDup_singleton].
          intros k' Hk' ->%list_elem_of_singleton. done.
        + apply elem_of_app. right. by left.
        + apply Forall_app. split.
          * eapply Forall_impl; [exact Hall|]. simpl. tauto.
          * constructor; [|constructor]. simpl. split; [|done].
            destruct (framesFor k children) eqn:Hf; [done|].
            destruct Hfresh. apply Hkeys. by rewrite Hf.
        + intros k' Hk'. apply elem_of_app. by left. }
    rewrite mapPush_fmap by done. split; [|split].
    + by rewrite pushed_keys.
    + rewrite Forall_fmap. eapply Forall_impl; [exact Hall0|]. simpl.
      intros [k' v'] [Hv Hne]. simpl in *. rewrite framesFor_snoc, Hacc.
      case_bool_decide as Hk; simpl.
      * subst k'. rewrite bool_decide_eq_true_2 by done.
        split; [by rewrite Hv|]. by destruct v'.
      * rewrite bool_decide_eq_false_2 by done. rewrite app_nil_r. auto.
    + intros k'. rewrite framesFor_snoc, Hacc. intros Hne.
      rewrite pushed_keys.
      case_bool_decide as Hk; [by subst k'|].
      rewrite app_nil_r in Hne. by apply Hsub, Hkeys.
  - split; [done|]. split.
    + eapply Forall_impl; [exact Hall|]. simpl. intros g [-> Hne].
      rewrite framesFor_snoc, Hacc, app_nil_r. done.
    + intros k. rewrite framesFor_snoc, Hacc, app_nil_r. apply Hkeys.
Qed.

Lemma groupChildren_holds children : holds (groupChildren children) children.
Proof.
  induction children as [|c children IH] using rev_ind.
  - repeat split; [constructor|constructor|done].
  - unfold groupChildren. rewrite foldl_app. simpl. by apply groupStep_holds.
Qed.

Lemma listing_Permutation localeCompare children :
  listing localeCompare children
  ≡ₚ (fun g : string * list NumUrl =>
        {| name := g.1; frames := url <$> JsArray.sort byNum g.2 |})
     <$> groupChildren children.
Proof.
  unfold listing, buildResult, sortedGroups.
  rewrite SortProofs.sort_Permutation, <- list_fmap_compose. done.
Qed.

Lemma listing_names localeCompare children :
  name <$> listing localeCompare children ≡ₚ (groupChildren children).*1.
Proof.
  rewrite listing_Permutation, <- list_fmap_compose. done.
Qed.

Lemma listing_names_NoDup localeCompare children :
  NoDup (name <$> listing localeCompare children).
Proof.
  destruct (groupChildren_holds children) as (Hnd & _ & _).
  by rewrite listing_names.
Qed.


(** *** The order of the groups *)

Lemma insertSorted_Sorted_total {A : Type} (cmp : A -> A -> Z) x l :
  (forall a b, cmp a b <= 0 \/ cmp b a <= 0) ->
  Sorted (fun a b => cmp a b <= 0) l ->
  Sorted (fun a b => cmp a b <= 0) (JsArray.insertSorted cmp x l).
Proof.
  intros Htotal. induction 1 as [|y ys Hys IH Hy]; simpl; [by repeat constructor|].
  destruct (Z.leb_spec (cmp x y) 0) as [Hle|Hgt].
  - constructor; [by constructor|by constructor].
  - constructor; [done|].
    destruct ys as [|z zs]; simpl.
    + constructor. destruct (Htotal x y); lia.
    + destruct (Z.leb_spec (cmp x z) 0).
      * constructor. destruct (Htotal x y); lia.
      * constructor. by apply HdRel_inv in Hy.
Qed.

Lemma sort_Sorted_total {A : Type} (cmp : A -> A -> Z) l :
  (forall a b, cmp a b <= 0 \/ cmp b a <= 0) ->
  Sorted (fun a b => cmp a b <= 0) (JsArray.sort cmp l).
Proof.
  intros Htotal. induction l as [|x xs IH]; simpl; [constructor|].
  by apply insertSorted_Sorted_total.
Qed.

(** For a collation that orders any two names one way or the other, each
    group of the result is followed by one its name does not come after. *)
Theorem listing_is_sorted_by_name (localeCompare : string -> string -> Z)
    (children : list OneDriveChild) :
  totalOrder localeCompare ->
  Sorted (fun a b => localeCompare (name a) (name b) <= 0)
         (listing localeCompare children).
Proof.
  intros Htotal. unfold listing, buildResult.
  apply (sort_Sorted_total (byName localeCompare)).
  intros a b. apply Htotal.
Qed.

Lemma codeOrder_total : totalOrder codeOrder.
Proof.
  intros a b. unfold codeOrder. rewrite (String.compare_antisym a b).
  destruct (String.compare b a); simpl; lia.
Qed.

Lemma listing_is_sorted_by_name_witness :
  Sorted (fun a b => codeOrder (name a) (name b) <= 0)
         (listing codeOrder [child "h2d-2.jpg" "b"; child "h2c-3.jpg" "c";
                             bare "h2c-2.jpg"; child "h2c-1.jpg" "a"]).
Proof. apply (listing_is_sorted_by_name codeOrder), codeOrder_total. Defined.

(** *** Choosing a printer in the App *)

Lemma filter_by_unique_key {A B : Type} `{EqDecision B} (f : A -> B) (l : list A) (p : A) :
  NoDup (f <$> l) -> p ∈ l -> filter (fun q => f q = f p) l = [p].
Proof.
  induction l as [|q l IH]; simpl; [by intros _ ?%elem_of_nil|].
  intros [Hq Hl]%NoDup_cons [->|Hin]%elem_of_cons.
  - rewrite filter_cons_True by done. f_equal.
    clear IH Hl. induction l as [|r l IH]; [done|].
    simpl in Hq. apply not_elem_of_cons in Hq as [Hne Hq].
    rewrite filter_cons_False by done. by apply IH.
  - rewrite filter_cons_False; [by apply IH|].
    intros Heq. apply Hq. rewrite Heq. by apply list_elem_of_fmap_2.
Qed.

(** Choosing a printer of the listing shows this printer's group and no
    other, unless the printer is called "all": that name is the one the App
    keeps for showing every group. *)
Theorem choosing_a_printer_shows_it (localeCompare : string -> string -> Z)
    (children : list OneDriveChild) (p : PrinterImages) :
  p ∈ listing localeCompare children ->
  (name p <> "all" ->
     visiblePrinters (name p) (listing localeCompare children) = [p])
  /\ (name p = "all" ->
        visiblePrinters (name p) (listing localeCompare children)
        = listing localeCompare children).
Proof.
  intros Hp. unfold visiblePrinters. split; intros Hname.
  - rewrite bool_decide_eq_false_2 by done.
    apply filter_by_unique_key; [|done].
    apply listing_names_NoDup.
  - by rewrite bool_decide_eq_true_2.
Qed.

Lemma threePrinters_listing :
  listing codeOrder threePrinters
  = [ {| name := "all"; frames := ["z"] |};
      {| name := "h2c"; frames := ["a"] |};
      {| name := "h2d"; frames := ["b"] |} ].
Proof. by vm_compute. Qed.

Lemma choosing_a_printer_shows_it_witness :
  visiblePrinters "h2c" (listing codeOrder threePrinters)
  = [ {| name := "h2c"; frames := ["a"] |} ]
  /\ visiblePrinters "all" (listing codeOrder threePrinters)
     = listing codeOrder threePrinters.
Proof.
  split.
  - apply (choosing_a_printer_shows_it codeOrder threePrinters
             {| name := "h2c"; frames := ["a"] |}).
    + rewrite threePrinters_listing. right. left.
    + done.
  - apply (choosing_a_printer_shows_it codeOrder threePrinters
             {| name := "all"; frames := ["z"] |}).
    + rewrite threePrinters_listing. left.
    + done.
Defined.

(** *** The view of one group *)

Lemma step_inRange s e s' :
  inRange s -> (forall p, e <> Rerender p) -> step s e = Some s' ->
  printer s' = printer s /\ inRange s'.
Proof.
  unfold inRange, totalFrames. intros Hin Hev Hstep. destruct e; simpl in Hstep.
  - case_bool_decide as Htotal; [done|]. injection Hstep as <-. simpl.
    split; [done|]. unfold totalFrames in *.
    rewrite Z.rem_mod_nonneg by lia.
    pose proof (Z.mod_pos_bound (currentFrame s + 1)
                  (Z.of_nat (length (frames (printer s)))) ltac:(lia)).
    lia.
  - case_bool_decide; [|done]. injection Hstep as <-. simpl. split; [done|lia].
  - by destruct (Hev p).
Qed.

(** Under the timer and the frame buttons, with the [printer] prop as it
    was at mount, the index stays between 0 and the last frame, and a group
    with frames always has one of them shown. *)
Theorem group_view_shows_a_frame (p : PrinterImages) (es : list Event) (s : State) :
  Forall (fun e => forall q, e <> Rerender q) es ->
  run (mount p) es = Some s ->
  printer s = p
  /\ 0 <= currentFrame s <= Z.max (Z.of_nat (length (frames p)) - 1) 0
  /\ (frames p <> [] -> is_Some (shown s)).
Proof.
  intros Hes Hrun.
  assert (printer s = p /\ inRange s) as [Hp Hin].
  { assert (printer (mount p) = p /\ inRange (mount p)) as H0.
    { split; [done|]. unfold inRange. simpl. lia. }
    revert H0 Hrun. generalize (mount p). clear -Hes.
    induction Hes as [|e es He _ IH]; intros s0 [Hp Hin] Hrun; simpl in Hrun.
    - by injection Hrun as <-.
    - destruct (step s0 e) as [s1|] eqn:Hstep; [|done].
      destruct (step_inRange s0 e s1 Hin He Hstep) as [Hp1 Hin1].
      apply (IH s1); [|done]. split; [congruence|done]. }
  unfold inRange, totalFrames in Hin. rewrite Hp in Hin.
  split; [done|]. split; [lia|]. intros Hne. unfold shown.
  rewrite bool_decide_eq_false_2 by lia. rewrite Hp.
  apply lookup_lt_is_Some. destruct (frames p); [done|]. simpl in *. lia.
Qed.

Lemma group_view_shows_a_frame_witness :
  printer {| printer := {| name := "h2c"; frames := ["a"; "b"; "c"] |};
             currentFrame := 2 |}
  = {| name := "h2c"; frames := ["a"; "b"; "c"] |}
  /\ 0 <= 2 <= Z.max (Z.of_nat (length ["a"; "b"; "c"]) - 1) 0
  /\ is_Some (shown {| printer := {| name := "h2c"; frames := ["a"; "b"; "c"] |};
                       currentFrame := 2 |}).
Proof.
  destruct (group_view_shows_a_frame
              {| name := "h2c"; frames := ["a"; "b"; "c"] |}
              [Tick; GoToFrame 0; Tick; Tick]
              {| printer := {| name := "h2c"; frames := ["a"; "b"; "c"] |};
                 currentFrame := 2 |}) as (H1 & H2 & H3).
  - repeat constructor; by intros q.
  - by vm_compute.
  - split; [exact H1|]. split; [exact H2|]. by apply H3.
Defined.

(** With the [printer] prop unchanged, [n] ticks of the timer move the
    index [n] frames on around the group: from frame [i] to frame
    [(i + n) mod totalFrames]. *)
Theorem group_view_ticks_go_round (n : nat) (s : State) :
  1 < totalFrames s -> 0 <= currentFrame s ->
  run s (replicate n Tick)
  = Some {| printer := printer s;
            currentFrame := if bool_decide (n = 0%nat) then currentFrame s
                            else (currentFrame s + Z.of_nat n) `mod` totalFrames s |}.
Proof.
  revert s. induction n as [|n IH]; intros s Htotal Hidx.
  - simpl. by destruct s.
  - simpl. rewrite bool_decide_eq_false_2 by lia.
    set (s1 := {| printer := printer s;
                  currentFrame := Z.rem (currentFrame s + 1) (totalFrames s) |}).
    assert (currentFrame s1 = (currentFrame s + 1) `mod` totalFrames s) as Hcf
      by (simpl; apply Z.rem_mod_nonneg; lia).
    pose proof (Z.mod_pos_bound (currentFrame s + 1) (totalFrames s) ltac:(lia)).
    assert (totalFrames s1 = totalFrames s) as Ht by done.
    rewrite (IH s1) by (rewrite ?Ht, ?Hcf; lia).
    rewrite Ht, Hcf. change (printer s1) with (printer s). do 2 f_equal.
    case_bool_decide as Hn.
    + by subst n.
    + rewrite Z.add_mod_idemp_l by lia. f_equal. lia.
Qed.

Lemma group_view_ticks_go_round_witness :
  run (mount {| name := "h2c"; frames := ["a"; "b"; "c"] |}) (replicate 4 Tick)
  = Some {| printer := printer (mount {| name := "h2c"; frames := ["a"; "b"; "c"] |});
            currentFrame :=
              if bool_decide (4%nat = 0%nat)
              then currentFrame (mount {| name := "h2c"; frames := ["a"; "b"; "c"] |})
              else (currentFrame (mount {| name := "h2c"; frames := ["a"; "b"; "c"] |})
                    + Z.of_nat 4)
                   `mod` totalFrames (mount {| name := "h2c"; frames := ["a"; "b"; "c"] |}) |}.
Proof.
  apply (group_view_ticks_go_round 4 (mount {| name := "h2c"; frames := ["a"; "b"; "c"] |}));
    by vm_compute.
Defined.

(** A new [printer] prop of the same name with fewer frames leaves the
    index where it was; no frame is shown until the timer brings it back. *)
Example group_view_rerender_with_fewer_frames :
  run (mount {| name := "h2c"; frames := ["a"; "b"; "c"] |})
      [GoToFrame 2; Rerender {| name := "h2c"; frames := ["a"] |}]
  = Some {| printer := {| name := "h2c"; frames := ["a"] |}; currentFrame := 2 |}
  /\ shown {| printer := {| name := "h2c"; frames := ["a"] |}; currentFrame := 2 |}
     = None.
Proof. by vm_compute. Qed.

End ListingMoreProofs.

Module LabelProofs.
Import FrameLabel ShareToken.

Example formatMinute_examples :
  formatMinute 0 = "00:00" /\ formatMinute 65 = "01:05"
  /\ formatMinute 1439 = "23:59" /\ formatMinute 6000 = "100:00"
  /\ formatMinute (-1) = "-1:-1".
Proof. by vm_compute. Qed.

Example btoa_examples :
  btoa "" = "" /\ btoa "M" = "TQ==" /\ btoa "Ma" = "TWE=" /\ btoa "Man" = "TWFu"
  /\ btoa "https://" = "aHR0cHM6Ly8="
  /\ encodeShareUrl "https://" = "u!aHR0cHM6Ly8"
  /\ encodeShareUrl "??>>" = "u!Pz8-Pg".
Proof. by vm_compute. Qed.

(** *** The label *)

(** A check that holds on every number of a range holds on each. *)
Lemma forallb_seqZ (f : Z -> bool) (n : nat) :
  forallb f (seqZ 0 (Z.of_nat n)) = true ->
  forall m, 0 <= m < Z.of_nat n -> f m = true.
Proof.
  intros Hall m Hm. rewrite forallb_forall in Hall. apply Hall.
  apply list_elem_of_In, elem_of_seqZ. lia.
Qed.

Lemma padStart2_two_digits n :
  0 <= n < 100 ->
  padStart2 (pretty n)
  = String (digitChar (n `div` 10)) (String (digitChar (n `mod` 10)) "").
Proof.
  intros Hn.
  apply (forallb_seqZ
           (fun n => bool_decide
              (padStart2 (pretty n)
               = String (digitChar (n `div` 10)) (String (digitChar (n `mod` 10)) "")))
           100) in Hn; [by apply bool_decide_eq_true in Hn|by vm_compute].
Qed.

Lemma digitChar_inj d1 d2 :
  0 <= d1 < 10 -> 0 <= d2 < 10 -> digitChar d1 = digitChar d2 -> d1 = d2.
Proof.
  unfold digitChar. intros H1 H2 H%(f_equal nat_of_ascii).
  rewrite !nat_ascii_embedding in H by lia. lia.
Qed.

(** For an ordinal from 0 up to 5999 the label is the clock reading HH:MM,
    five characters with the hours [m / 60] and the minutes [m mod 60] in
    two digits each; two such ordinals never share a label. *)
Theorem formatMinute_is_a_clock_reading (m : Z) :
  0 <= m < 6000 ->
  formatMinute m = clockLabel (m `div` 60) (m `mod` 60)
  /\ String.length (formatMinute m) = 5%nat
  /\ (forall m', 0 <= m' < 6000 -> formatMinute m' = formatMinute m -> m' = m).
Proof.
  assert (forall k, 0 <= k < 6000 ->
            formatMinute k = clockLabel (k `div` 60) (k `mod` 60)) as Hclock.
  { intros k Hk. unfold formatMinute, clockLabel.
    rewrite Z.rem_mod_nonneg by lia.
    rewrite !padStart2_two_digits; [done| |].
    - pose proof (Z.mod_pos_bound k 60). lia.
    - split; [apply Z.div_pos; lia|]. apply Z.div_lt_upper_bound; lia. }
  intros Hm. split; [by apply Hclock|]. split; [by rewrite Hclock|].
  intros m' Hm'. rewrite !Hclock by done. unfold clockLabel.
  intros [= H1 H2 H3 H4].
  assert (0 <= m `div` 60 < 100 /\ 0 <= m' `div` 60 < 100) as [Hh Hh'].
  { split; (split; [apply Z.div_pos; lia|apply Z.div_lt_upper_bound; lia]). }
  pose proof (Z.mod_pos_bound m 60 ltac:(lia)) as Hmin.
  pose proof (Z.mod_pos_bound m' 60 ltac:(lia)) as Hmin'.
  apply digitChar_inj in H1, H2, H3, H4;
    try (apply Z.mod_pos_bound; lia);
    try (split; [apply Z.div_pos; lia|apply Z.div_lt_upper_bound; lia]).
  assert (m `div` 60 = m' `div` 60) as Hq.
  { rewrite (Z.div_mod (m `div` 60) 10), (Z.div_mod (m' `div` 60) 10) by lia. lia. }
  assert (m `mod` 60 = m' `mod` 60) as Hr.
  { rewrite (Z.div_mod (m `mod` 60) 10), (Z.div_mod (m' `mod` 60) 10) by lia. lia. }
  rewrite (Z.div_mod m 60), (Z.div_mod m' 60) by lia. lia.
Qed.

Lemma formatMinute_is_a_clock_reading_witness :
  formatMinute 754 = clockLabel (754 `div` 60) (754 `mod` 60)
  /\ String.length (formatMinute 754) = 5%nat
  /\ (forall m', 0 <= m' < 6000 -> formatMinute m' = formatMinute 754 -> m' = 754).
Proof. apply (formatMinute_is_a_clock_reading 754). lia. Defined.

End LabelProofs.

(** ** The share token *)

Module TokenProofs.
Import ShareToken.

(** Arithmetic with quotients and remainders by constants. *)
Ltac div_lia := zify; Z.div_mod_to_equations; lia.

Lemma list_ind3 {A : Type} (P : list A -> Prop) :
  P [] -> (forall a, P [a]) -> (forall a b, P [a; b]) ->
  (forall a b c rest, P rest -> P (a :: b :: c :: rest)) ->
  forall l, P l.
Proof.
  intros H0 H1 H2 H3 l.
  assert (P l /\ (forall a, P (a :: l)) /\ (forall a b, P (a :: b :: l)))
    as [? _]; [|done].
  induction l as [|x l (IH0 & IH1 & IH2)]; [by auto|].
  split; [by apply IH1|]. split; [by intros; apply IH2|].
  intros a b. by apply H3.
Qed.

Lemma forallb_seq (f : nat -> bool) (n : nat) :
  forallb f (seq 0 n) = true -> forall i, (i < n)%nat -> f i = true.
Proof.
  intros Hall i Hi. rewrite forallb_forall in Hall. apply Hall.
  apply list_elem_of_In, elem_of_seq. lia.
Qed.

(** *** Groups of six bits *)

Lemma sextets_bound bytes :
  Forall (fun a => a < 256)%nat bytes -> Forall (fun x => x < 64)%nat (sextets bytes).
Proof.
  induction bytes as [|a|a b|a b c rest IH] using list_ind3; cbn [sextets app].
  - constructor.
  - intros [Ha _]%Forall_cons.
    repeat (apply Forall_cons; split; [div_lia|]). constructor.
  - intros [Ha [Hb _]%Forall_cons]%Forall_cons.
    repeat (apply Forall_cons; split; [div_lia|]). constructor.
  - intros [Ha [Hb [Hc Hrest]%Forall_cons]%Forall_cons]%Forall_cons.
    repeat (apply Forall_cons; split; [div_lia|]). by apply IH.
Qed.

Lemma sextets_length bytes :
  length (sextets bytes) = ((4 * length bytes + 2) / 3)%nat.
Proof.
  induction bytes as [|a|a b|a b c rest IH] using list_ind3; try done.
  cbn [sextets length app]. rewrite IH. simpl length. div_lia.
Qed.

Lemma unsextets_sextets bytes :
  Forall (fun a => a < 256)%nat bytes -> unsextets (sextets bytes) = bytes.
Proof.
  induction bytes as [|a|a b|a b c rest IH] using list_ind3.
  - done.
  - intros [Ha _]%Forall_cons. cbn [sextets unsextets]. f_equal. div_lia.
  - intros [Ha [Hb _]%Forall_cons]%Forall_cons. cbn [sextets unsextets].
    f_equal; [div_lia|]. f_equal. div_lia.
  - intros [Ha [Hb [Hc Hrest]%Forall_cons]%Forall_cons]%Forall_cons.
    cbn [sextets unsextets app]. rewrite (IH Hrest).
    f_equal; [div_lia|]. f_equal; [div_lia|]. f_equal. div_lia.
Qed.

(** *** The alphabet *)

Lemma tokenChar_safe i : (i < 64)%nat -> urlSafeChar (tokenChar i) = true.
Proof.
  apply (forallb_seq (fun i => urlSafeChar (tokenChar i)) 64). by vm_compute.
Qed.

Lemma base64Char_not_padding i :
  (i < 64)%nat -> bool_decide (base64Char i = "="%char) = false.
Proof.
  intros Hi.
  apply (forallb_seq (fun i => negb (bool_decide (base64Char i = "="%char))) 64)
    in Hi; [by apply negb_true_iff in Hi|by vm_compute].
Qed.

Lemma tokenChar_inj i j :
  (i < 64)%nat -> (j < 64)%nat -> tokenChar i = tokenChar j -> i = j.
Proof.
  intros Hi Hj Heq.
  pose proof (forallb_seq
    (fun i => forallb (fun j => implb (bool_decide (tokenChar i = tokenChar j))
                                      (bool_decide (i = j))) (seq 0 64))
    64 ltac:(by vm_compute) i Hi) as Hrow.
  pose proof (forallb_seq _ 64 Hrow j Hj) as Hcell. simpl in Hcell.
  rewrite bool_decide_eq_true_2 in Hcell by done.
  by apply bool_decide_eq_true in Hcell.
Qed.

Lemma tokenChars_inj l1 l2 :
  Forall (fun x => x < 64)%nat l1 -> Forall (fun x => x < 64)%nat l2 ->
  tokenChar <$> l1 = tokenChar <$> l2 -> l1 = l2.
Proof.
  intros H1. revert l2. induction H1 as [|x l1 Hx _ IH]; intros [|y l2] H2 Heq;
    try done.
  apply Forall_cons in H2 as [Hy H2]. rewrite !fmap_cons in Heq.
  injection Heq as Hxy Heq. f_equal; [by apply tokenChar_inj|by apply IH].
Qed.

(** *** From the string to the token *)

Lemma span_all_false {A : Type} (p : A -> bool) (l : list A) :
  Forall (fun c => p c = false) l -> (OneDrive.span p l).2 = l.
Proof. destruct 1 as [|c l Hc _]; simpl; [done|by rewrite Hc]. Qed.

Lemma span_replicate {A : Type} (p : A -> bool) (c : A) (k : nat) (l : list A) :
  p c = true -> (OneDrive.span p (replicate k c ++ l)).2 = (OneDrive.span p l).2.
Proof.
  intros Hc. induction k as [|k IH]; simpl; [done|].
  rewrite Hc. by destruct (OneDrive.span p (replicate k c ++ l)).
Qed.

Lemma stripPadding_base64 groups k :
  Forall (fun x => x < 64)%nat groups ->
  stripPadding ((base64Char <$> groups) ++ replicate k "="%char)
  = base64Char <$> groups.
Proof.
  intros Hg. unfold stripPadding.
  rewrite reverse_app, reverse_replicate, span_replicate by done.
  rewrite span_all_false; [by rewrite reverse_involutive|].
  apply Forall_reverse, Forall_fmap.
  eapply Forall_impl; [exact Hg|]. simpl. apply base64Char_not_padding.
Qed.

Lemma bytesOf_bound s : Forall (fun a => a < 256)%nat (bytesOf s).
Proof.
  unfold bytesOf. apply Forall_fmap, Forall_forall. intros c _. simpl.
  apply nat_ascii_bounded.
Qed.

Lemma bytesOf_length s : length (bytesOf s) = String.length s.
Proof.
  unfold bytesOf. rewrite length_fmap.
  induction s as [|c s IH]; simpl; [done|by rewrite IH].
Qed.

Lemma bytesOf_inj s1 s2 : bytesOf s1 = bytesOf s2 -> s1 = s2.
Proof.
  unfold bytesOf. revert s2. induction s1 as [|c1 s1 IH]; intros [|c2 s2]; simpl;
    try done.
  intros [= Hc Hs]. f_equal; [|by apply IH].
  apply (f_equal ascii_of_nat) in Hc. by rewrite !ascii_nat_embedding in Hc.
Qed.

Lemma string_of_list_length (l : list ascii) :
  String.length (String.string_of_list_ascii l) = length l.
Proof. induction l as [|c l IH]; simpl; [done|by rewrite IH]. Qed.

Lemma string_of_list_inj (l1 l2 : list ascii) :
  String.string_of_list_ascii l1 = String.string_of_list_ascii l2 -> l1 = l2.
Proof.
  intros H%(f_equal String.list_ascii_of_string).
  by rewrite !String.list_ascii_of_string_of_list_ascii in H.
Qed.

(** The token is the mark [u!] and one character for each group of six
    bits of the URL. *)
Lemma encodeShareUrl_groups url :
  encodeShareUrl url
  = "u!" +:+ String.string_of_list_ascii (tokenChar <$> sextets (bytesOf url)).
Proof.
  unfold encodeShareUrl, btoa, btoaBytes, padding. fold (bytesOf url).
  rewrite String.list_ascii_of_string_of_list_ascii.
  rewrite stripPadding_base64 by apply sextets_bound, bytesOf_bound.
  unfold replaceAll. by rewrite <- !list_fmap_compose.
Qed.

(** The token of any URL is [u!] followed by letters, digits, [-] and [_]
    only (no [=], [+] or [/] is left), one for every six bits of the URL. *)
Theorem share_token_is_url_safe (url : string) :
  exists body,
    encodeShareUrl url = "u!" +:+ body
    /\ forallb urlSafeChar (String.list_ascii_of_string body) = true
    /\ String.length body = ((4 * String.length url + 2) / 3)%nat.
Proof.
  exists (String.string_of_list_ascii (tokenChar <$> sextets (bytesOf url))).
  split; [apply encodeShareUrl_groups|]. split.
  - rewrite String.list_ascii_of_string_of_list_ascii.
    apply forallb_forall. intros c Hc%list_elem_of_In.
    apply list_elem_of_fmap in Hc as (i & -> & Hi).
    apply tokenChar_safe.
    pose proof (sextets_bound _ (bytesOf_bound url)) as Hb.
    rewrite Forall_forall in Hb. by apply Hb.
  - by rewrite string_of_list_length, length_fmap, sextets_length, bytesOf_length.
Qed.

(** Two URLs with the same token are the same URL: the token can be read
    back. *)
Theorem share_token_is_injective (url1 url2 : string) :
  encodeShareUrl url1 = encodeShareUrl url2 -> url1 = url2.
Proof.
  rewrite !encodeShareUrl_groups. intros H.
  apply (String.app_inj "u!") in H. apply string_of_list_inj in H.
  apply tokenChars_inj in H; [|apply sextets_bound, bytesOf_bound..].
  apply (f_equal unsextets) in H.
  rewrite !unsextets_sextets in H by apply bytesOf_bound.
  by apply bytesOf_inj.
Qed.

Lemma share_token_is_injective_witness : SHARE_URL = SHARE_URL.
Proof. by apply (share_token_is_injective SHARE_URL SHARE_URL). Defined.

Example share_token_of_the_folder :
  encodeShareUrl SHARE_URL
  = "u!aHR0cHM6Ly8xZHJ2Lm1zL2YvYy84OTFkZTJhNGYyODRjNjQ5L0lnRDl6QXJyVjlBOVRiMnFxUDAydUxNOUFYVVdKeE50LUg3c2ZNUVcyZnM3QVRjP2U9ZVA3YU1X".
Proof. by vm_compute. Qed.

End TokenProofs.

(** ** The plain player *)

Module PlainViewProofs.
Import ImageService PlainView.

Lemma plain_inPlayer_true s :
  inPlayer s = true -> loading s = false /\ frames s <> [].
Proof.
  unfold inPlayer, render. destruct (loading s); [done|].
  case_bool_decide as Hlen; [done|]. intros _. split; [done|].
  by intros Hnil; rewrite Hnil in Hlen.
Qed.

Lemma step_sound s e s' : sound s -> step s e = Some s' -> sound s'.
Proof.
  unfold sound. intros [Hidx Hload] Hstep. destruct e; simpl in Hstep.
  - injection Hstep as <-. simpl. split; [done|lia].
  - destruct (playing s); simpl in Hstep; [|done].
    case_bool_decide; [|done]. injection Hstep as <-. simpl.
    split; [case_bool_decide; lia|done].
  - destruct (inFlight s); [done|]. injection Hstep as <-. simpl.
    split; [case_bool_decide; lia|done].
  - destruct (inPlayer s); simpl in Hstep; [|done].
    case_bool_decide; [|done]. injection Hstep as <-. simpl.
    split; [lia|done].
  - destruct (inPlayer s); [|done]. injection Hstep as <-. simpl.
    split; [lia|done].
  - destruct (inPlayer s); [|done]. injection Hstep as <-. simpl.
    split; [lia|done].
  - destruct (inPlayer s); [|done]. by injection Hstep as <-.
  - destruct (inPlayer s) eqn:Hp; [|done]. injection Hstep as <-. simpl.
    apply plain_inPlayer_true in Hp as [_ Hne]. destruct (frames s); [done|].
    simpl in *. split; [lia|done].
  - destruct (inPlayer s) eqn:Hp; [|done]. injection Hstep as <-. simpl.
    apply plain_inPlayer_true in Hp as [_ Hne]. destruct (frames s); [done|].
    simpl in *. split; [lia|done].
  - destruct (inPlayer s); simpl in Hstep; [|done].
    case_bool_decide; [|done]. by injection Hstep as <-.
Qed.

(** After any run of events from mount, whatever the loads return, the
    index of the plain player lies between 0 and the last position of the
    store (0 on an empty store); a loading screen always has a load on its
    way; and whenever the player is rendered the frame
    [frames[currentIndex]] it reads exists. *)
Theorem plain_player_frame_always_exists (es : list Event) (s : State) :
  run mount es = Some s ->
  0 <= currentIndex s <= Z.max (Z.of_nat (length (frames s)) - 1) 0
  /\ (loading s = true -> (0 < inFlight s)%nat)
  /\ (forall shown, render s = ShowPlayer shown ->
        is_Some shown /\ shown = frames s !! Z.to_nat (currentIndex s)).
Proof.
  intros Hrun.
  assert (sound s) as [Hidx Hload].
  { assert (sound mount) as H0 by (split; [by vm_compute|simpl; lia]).
    revert H0 Hrun. generalize mount.
    induction es as [|e es IH]; intros s0 H0 Hrun; simpl in Hrun.
    - by injection Hrun as <-.
    - destruct (step s0 e) as [s1|] eqn:Hstep; [|done].
      apply (IH s1); [|done]. by apply (step_sound s0 e). }
  split; [done|]. split; [done|]. intros shown Hr.
  assert (inPlayer s = true) as [_ Hne]%plain_inPlayer_true
    by (unfold inPlayer; by rewrite Hr).
  unfold render in Hr. destruct (loading s); [done|].
  case_bool_decide; [done|]. injection Hr as <-.
  unfold currentFrame. rewrite bool_decide_eq_false_2 by lia. split; [|done].
  apply lookup_lt_is_Some. destruct (frames s); [done|]. simpl in *. lia.
Qed.

Lemma plain_player_frame_always_exists_witness :
  0 <= 0 <= Z.max (Z.of_nat (length [frameAt h2c 7]) - 1) 0
  /\ is_Some (Some (frameAt h2c 7))
  /\ Some (frameAt h2c 7) = [frameAt h2c 7] !! Z.to_nat 0.
Proof.
  destruct (plain_player_frame_always_exists
              [Resolved [frameAt h2c 5; frameAt h2c 6; frameAt h2c 7];
               GoToLatest; RefreshTick; RefreshTick;
               Resolved [frameAt h2c 6; frameAt h2c 7];
               Resolved [frameAt h2c 7]]
              {| frames := [frameAt h2c 7]; currentIndex := 0; playing := false;
                 loading := false; speed := 500; inFlight := 0 |})
    as (Hidx & _ & Hshown); [by vm_compute|].
  split; [exact Hidx|]. apply Hshown. reflexivity.
Defined.

End PlainViewProofs.
